(** * Minesweeper knowledge base: the inference engine of minesweeper.py

    A shallow embedding of the classes [Sentence] and [MinesweeperAI] of
    [minesweeper.py], followed by the properties of the engine.

    Modelling conventions.
    - A cell is a Python tuple of two ints, here a pair of [Z]; a [count]
      is a Python int, here a [Z] (it can become negative).
    - A Python [set] of cells is a [gset Cell]: equality of sets is
      equality of their members, as [==] on Python sets.  A [for] loop over
      a set visits [elements] of it.
    - An object is the value of its fields.  A method that mutates [self]
      and returns nothing is a function to the new value of [self]; a method
      that returns a value gives the value together with the value of
      [self] it leaves.  The list [knowledge] never holds one [Sentence]
      object twice (every entry is built by its own call of the
      constructor, which copies the cell set), so a list of values stands
      for the list of objects and mutation in place is a [map] or an update
      at an index.
    - A call either returns or raises: [outcome].  The operations of the
      source that can raise are [set.remove] (KeyError) and [random.choice]
      (IndexError); they are modelled as such, and the guards the source
      puts in front of them are modelled as written. *)

From stdpp Require Import gmap list.

Local Open Scope Z_scope.

Set Warnings "-clear-no-such-hyp".

(** ** Calls that may raise *)

Inductive exn : Set := KeyError | IndexError.

Inductive outcome (A : Type) : Type :=
  | Returned (a : A)
  | Raised (e : exn).

Arguments Returned {A} a.
Arguments Raised {A} e.

#[global] Instance outcome_ret : MRet outcome := λ A a, Returned a.

#[global] Instance outcome_bind : MBind outcome := λ A B f m,
  match m with
  | Returned a => f a
  | Raised e => Raised e
  end.

(** [for x in items: body(self, x)], where the body mutates [self]. *)
Fixpoint for_each {S A : Type} (body : S → A → outcome S)
    (self : S) (items : list A) : outcome S :=
  match items with
  | [] => mret self
  | x :: rest => self ← body self x; for_each body self rest
  end.

(** Total correctness of a call: it returns, and what it returns
    satisfies [Q]. *)
Definition ensures {A : Type} (m : outcome A) (Q : A → Prop) : Prop :=
  match m with
  | Returned a => Q a
  | Raised _ => False
  end.

(** ** Cells and the primitives of Python used by the source *)

Definition Cell : Type := Z * Z.

(** [range(a, b)] *)
Definition range (a b : Z) : list Z := seqZ a (b - a).

(** [X.remove(x)]: raises KeyError when [x] is not a member. *)
Definition set_remove (x : Cell) (X : gset Cell) : outcome (gset Cell) :=
  if decide (x ∈ X) then Returned (X ∖ {[x]}) else Raised KeyError.

(** [random.choice(seq)]: raises IndexError on an empty sequence, else
    returns the element at a random index below [len(seq)]; [draw] is the
    number the generator supplies. *)
Definition random_choice {A : Type} (draw : nat) (seq : list A) : outcome A :=
  match seq !! (draw `mod` length seq)%nat with
  | Some x => Returned x
  | None => Raised IndexError
  end.

(** ** class Sentence *)

Module Sentence.

Record t : Type := mk { cells : gset Cell; count : Z }.

(** [__init__(self, cells, count)]: [self.cells = set(cells)]. *)
Definition __init__ (cells : gset Cell) (count : Z) : t :=
  {| cells := cells; count := count |}.

(** [__eq__]: [self.cells == other.cells and self.count == other.count]. *)
Definition __eq__ (self other : t) : bool :=
  bool_decide (cells self = cells other) && bool_decide (count self = count other).

(** [known_mines]: a copy of [self.cells] if [len(self.cells) == self.count],
    else a new empty set. *)
Definition known_mines (self : t) : gset Cell * t :=
  if decide (Z.of_nat (size (cells self)) = count self)
  then (cells self, self)
  else (∅, self).

(** [known_safes]: a copy of [self.cells] if [self.count == 0]. *)
Definition known_safes (self : t) : gset Cell * t :=
  if decide (count self = 0)
  then (cells self, self)
  else (∅, self).

(** [mark_mine]: under the membership guard, [self.cells.remove(cell)] and
    [self.count -= 1]. *)
Definition mark_mine (self : t) (cell : Cell) : outcome t :=
  if decide (cell ∈ cells self) then
    cells' ← set_remove cell (cells self);
    mret {| cells := cells'; count := count self - 1 |}
  else mret self.

(** [mark_safe]: under the membership guard, [self.cells.remove(cell)]. *)
Definition mark_safe (self : t) (cell : Cell) : outcome t :=
  if decide (cell ∈ cells self) then
    cells' ← set_remove cell (cells self);
    mret {| cells := cells'; count := count self |}
  else mret self.

End Sentence.

#[global] Instance sentence_eq_dec : EqDecision Sentence.t.
Proof. solve_decision. Defined.

(** [x in kb] for a list of sentences: some entry is [==] to [x]. *)
Definition list_contains (kb : list Sentence.t) (x : Sentence.t) : bool :=
  existsb (λ e, Sentence.__eq__ e x) kb.

(** ** class MinesweeperAI *)

Module MinesweeperAI.

Record t : Type := mk {
  height : Z;
  width : Z;
  moves_made : gset Cell;
  mines : gset Cell;
  safes : gset Cell;
  knowledge : list Sentence.t
}.

Definition set_moves_made (X : gset Cell) (self : t) : t :=
  {| height := height self; width := width self; moves_made := X;
     mines := mines self; safes := safes self; knowledge := knowledge self |}.

Definition set_mines (X : gset Cell) (self : t) : t :=
  {| height := height self; width := width self; moves_made := moves_made self;
     mines := X; safes := safes self; knowledge := knowledge self |}.

Definition set_safes (X : gset Cell) (self : t) : t :=
  {| height := height self; width := width self; moves_made := moves_made self;
     mines := mines self; safes := X; knowledge := knowledge self |}.

Definition set_knowledge (kb : list Sentence.t) (self : t) : t :=
  {| height := height self; width := width self; moves_made := moves_made self;
     mines := mines self; safes := safes self; knowledge := kb |}.

(** [__init__(self, height, width)]: the four containers start empty. *)
Definition __init__ (height width : Z) : t :=
  {| height := height; width := width; moves_made := ∅;
     mines := ∅; safes := ∅; knowledge := [] |}.

(** [mark_mine]: [self.mines.add(cell)], then [sentence.mark_mine(cell)]
    for every sentence of [self.knowledge]. *)
Definition mark_mine (self : t) (cell : Cell) : outcome t :=
  let self := set_mines ({[cell]} ∪ mines self) self in
  kb ← mapM (λ sentence, Sentence.mark_mine sentence cell) (knowledge self);
  mret (set_knowledge kb self).

(** [mark_safe]: [self.safes.add(cell)], then [sentence.mark_safe(cell)]
    for every sentence of [self.knowledge]. *)
Definition mark_safe (self : t) (cell : Cell) : outcome t :=
  let self := set_safes ({[cell]} ∪ safes self) self in
  kb ← mapM (λ sentence, Sentence.mark_safe sentence cell) (knowledge self);
  mret (set_knowledge kb self).

(** The first loop of [apply_inference], [for sentence in self.knowledge]:
    a list iterator reads the entry at index [i] when it gets there, so it
    sees what the earlier rounds did to that sentence.  The loop body does
    not change the length of the list, so [n], the number of rounds left,
    starts at [len(self.knowledge)]. *)
Fixpoint mark_known (n i : nat) (self : t) : outcome t :=
  match n with
  | O => mret self
  | S n' =>
      match knowledge self !! i with
      | None => mret self
      | Some sentence =>
          let '(mines, sentence) := Sentence.known_mines sentence in
          let '(safes, sentence) := Sentence.known_safes sentence in
          let self := set_knowledge (<[i := sentence]> (knowledge self)) self in
          self ← for_each mark_mine self (elements mines);
          self ← for_each mark_safe self (elements safes);
          mark_known n' (S i) self
      end
  end.

(** The nested loops of [apply_inference] over the pruned [knowledge]:
    the sentences appended to [new_knowledge], in the order of the loops. *)
Definition infer_pairs (kb : list Sentence.t) : list Sentence.t :=
  s1 ← kb;
  s2 ← kb;
  if negb (Sentence.__eq__ s1 s2) && bool_decide (Sentence.cells s1 ⊆ Sentence.cells s2)
  then
    let inferred_cells := Sentence.cells s2 ∖ Sentence.cells s1 in
    let inferred_count := Sentence.count s2 - Sentence.count s1 in
    let new_sentence := Sentence.__init__ inferred_cells inferred_count in
    if negb (list_contains kb new_sentence) then [new_sentence] else []
  else [].

Definition apply_inference (self : t) : outcome t :=
  self ← mark_known (length (knowledge self)) 0 self;
  let self :=
    set_knowledge
      (filter (λ s, (0 < size (Sentence.cells s))%nat) (knowledge self)) self in
  let new_knowledge := infer_pairs (knowledge self) in
  mret (set_knowledge (knowledge self ++ new_knowledge) self).

(** The two loops of [add_knowledge] that collect [neighbors]. *)
Definition neighbors (self : t) (cell : Cell) : gset Cell :=
  foldl (λ acc i,
    foldl (λ acc j,
      if decide ((i, j) ≠ cell ∧ (0 ≤ i < height self) ∧ (0 ≤ j < width self))
      then
        if decide (((i, j) ∉ safes self) ∧ ((i, j) ∉ mines self))
        then {[ (i, j) ]} ∪ acc
        else acc
      else acc)
      acc (range (cell.2 - 1) (cell.2 + 2)))
    ∅ (range (cell.1 - 1) (cell.1 + 2)).

Definition add_knowledge (self : t) (cell : Cell) (count : Z) : outcome t :=
  let self := set_moves_made ({[cell]} ∪ moves_made self) self in
  self ← mark_safe self cell;
  let neighbors := neighbors self cell in
  let new_sentence := Sentence.__init__ neighbors count in
  let self := set_knowledge (knowledge self ++ [new_sentence]) self in
  apply_inference self.

(** [make_safe_move]: the first cell the loop over [self.safes] finds
    outside [self.moves_made], or [None]. *)
Definition make_safe_move (self : t) : option Cell * t :=
  (find (λ cell, bool_decide (cell ∉ moves_made self)) (elements (safes self)),
   self).

(** [make_random_move]: [draw] is the number the generator supplies to
    [random.choice]. *)
Definition make_random_move (draw : nat) (self : t) : outcome (option Cell * t) :=
  let available_moves : list Cell :=
    i ← range 0 (height self);
    j ← range 0 (width self);
    if decide (((i, j) ∉ moves_made self) ∧ ((i, j) ∉ mines self))
    then [(i, j)] else [] in
  match available_moves with
  | [] => mret (None, self)
  | _ :: _ =>
      cell ← random_choice draw available_moves;
      mret (Some cell, self)
  end.

End MinesweeperAI.

(** ** Sequences of calls *)

(** A call of one of the public methods that change the agent. *)
Inductive call : Type :=
  | Observe (cell : Cell) (count : Z)
  | MarkMine (cell : Cell)
  | MarkSafe (cell : Cell).

Definition perform (self : MinesweeperAI.t) (c : call) : outcome MinesweeperAI.t :=
  match c with
  | Observe cell count => MinesweeperAI.add_knowledge self cell count
  | MarkMine cell => MinesweeperAI.mark_mine self cell
  | MarkSafe cell => MinesweeperAI.mark_safe self cell
  end.

(** The calls one after the other, on the same agent. *)
Definition perform_all (self : MinesweeperAI.t) (cs : list call) : outcome MinesweeperAI.t :=
  for_each perform self cs.

(** [add_knowledge] for each observation in turn. *)
Definition observe_all (self : MinesweeperAI.t) (obs : list (Cell * Z)) : outcome MinesweeperAI.t :=
  for_each (λ self o, MinesweeperAI.add_knowledge self o.1 o.2) self obs.

(** No observation of the sequence is of a cell that the agent holds in
    [mines] when the observation is made. *)
Fixpoint avoids_known_mines (self : MinesweeperAI.t) (obs : list (Cell * Z)) : bool :=
  match obs with
  | [] => true
  | o :: rest =>
      bool_decide (o.1 ∉ MinesweeperAI.mines self) &&
      match MinesweeperAI.add_knowledge self o.1 o.2 with
      | Returned self' => avoids_known_mines self' rest
      | Raised _ => false
      end
  end.

(** ** Values the marking methods leave

    The closed forms below are what the proofs show the methods to
    return; the methods themselves are the definitions above. *)

Definition strike_mine (s : Sentence.t) (c : Cell) : Sentence.t :=
  if decide (c ∈ Sentence.cells s)
  then {| Sentence.cells := Sentence.cells s ∖ {[c]};
          Sentence.count := Sentence.count s - 1 |}
  else s.

Definition strike_safe (s : Sentence.t) (c : Cell) : Sentence.t :=
  if decide (c ∈ Sentence.cells s)
  then {| Sentence.cells := Sentence.cells s ∖ {[c]};
          Sentence.count := Sentence.count s |}
  else s.

Definition agent_strike_mine (ai : MinesweeperAI.t) (c : Cell) : MinesweeperAI.t :=
  MinesweeperAI.set_knowledge
    ((λ s, strike_mine s c) <$> MinesweeperAI.knowledge ai)
    (MinesweeperAI.set_mines ({[c]} ∪ MinesweeperAI.mines ai) ai).

Definition agent_strike_safe (ai : MinesweeperAI.t) (c : Cell) : MinesweeperAI.t :=
  MinesweeperAI.set_knowledge
    ((λ s, strike_safe s c) <$> MinesweeperAI.knowledge ai)
    (MinesweeperAI.set_safes ({[c]} ∪ MinesweeperAI.safes ai) ai).

(** One round of the first loop of [apply_inference] on sentence [s]. *)
Definition settle (ai : MinesweeperAI.t) (s : Sentence.t) : MinesweeperAI.t :=
  foldl agent_strike_safe
    (foldl agent_strike_mine ai (elements (Sentence.known_mines s).1))
    (elements (Sentence.known_safes s).1).

(** The sentences [apply_inference] keeps after its first loop. *)
Definition pruned (kb : list Sentence.t) : list Sentence.t :=
  filter (λ s, (0 < size (Sentence.cells s))%nat) kb.

(** The state [add_knowledge] hands to [apply_inference]: the cell is
    recorded as a move and as safe, and the sentence about its unknown
    neighbours is the last entry of [knowledge]. *)
Definition recorded (ai : MinesweeperAI.t) (cell : Cell) (count : Z) : MinesweeperAI.t :=
  let ai1 :=
    agent_strike_safe
      (MinesweeperAI.set_moves_made ({[cell]} ∪ MinesweeperAI.moves_made ai) ai)
      cell in
  MinesweeperAI.set_knowledge
    (MinesweeperAI.knowledge ai1 ++
     [Sentence.__init__ (MinesweeperAI.neighbors ai1 cell) count]) ai1.

(** The sentences [{a, b} = 1] and [{a, b, c} = 2], and the sentence
    [{c} = 1] that follows from them. *)
Definition pair_sentence (a b : Cell) : Sentence.t :=
  Sentence.__init__ {[a; b]} 1.

Definition triple_sentence (a b c : Cell) : Sentence.t :=
  Sentence.__init__ {[a; b; c]} 2.

Definition single_sentence (c : Cell) : Sentence.t :=
  Sentence.__init__ {[c]} 1.

(** A new 8 by 8 agent whose [knowledge] is [{(0,0), (0,1)} = 1] and
    [{(0,0), (0,1), (0,2)} = 2]. *)
Definition agent_with_pair_and_triple : MinesweeperAI.t :=
  MinesweeperAI.set_knowledge
    [pair_sentence (0,0) (0,1); triple_sentence (0,0) (0,1) (0,2)]
    (MinesweeperAI.__init__ 8 8).

(** An 8 by 8 agent that holds [{(5,5), (5,6)} = 1] beside the two
    sentences [{(0,0), (0,1)} = 1] and [{(0,0), (0,1), (0,2)} = 2]. *)
Definition agent_with_three_sentences : MinesweeperAI.t :=
  MinesweeperAI.set_knowledge
    [Sentence.__init__ {[ (5,5); (5,6) ]} 1;
     pair_sentence (0,0) (0,1); triple_sentence (0,0) (0,1) (0,2)]
    (MinesweeperAI.__init__ 8 8).

(** An 8 by 8 agent that holds the false sentence [{(0,2)} = 0] beside
    [{(0,0), (0,1)} = 1] and [{(0,0), (0,1), (0,2)} = 2]. *)
Definition agent_with_false_sentence : MinesweeperAI.t :=
  MinesweeperAI.set_knowledge
    [Sentence.__init__ {[ (0,2) ]} 0;
     pair_sentence (0,0) (0,1); triple_sentence (0,0) (0,1) (0,2)]
    (MinesweeperAI.__init__ 8 8).

(** A new 5 by 5 agent after [add_knowledge((0,0), 1)] and
    [add_knowledge((0,1), 3)]. *)
Definition agent_after_two : MinesweeperAI.t :=
  {| MinesweeperAI.height := 5; MinesweeperAI.width := 5;
     MinesweeperAI.moves_made := {[ (0,0); (0,1) ]};
     MinesweeperAI.mines := ∅;
     MinesweeperAI.safes := {[ (0,0); (0,1) ]};
     MinesweeperAI.knowledge :=
       [ Sentence.__init__ {[ (1,0); (1,1) ]} 1;
         Sentence.__init__ {[ (0,2); (1,0); (1,1); (1,2) ]} 3;
         Sentence.__init__ {[ (0,2); (1,2) ]} 2 ] |}.

(** The eight cells around (2,2). *)
Definition around_2_2 : list Cell :=
  [(1,1); (1,2); (1,3); (2,1); (2,3); (3,1); (3,2); (3,3)].

(** ** Properties of the agent state *)

(** No cell is both known safe and known mine. *)
Definition disjoint_marks (ai : MinesweeperAI.t) : Prop :=
  MinesweeperAI.safes ai ∩ MinesweeperAI.mines ai = ∅.

(** No sentence of [knowledge] mentions a cell of [safes] or [mines]. *)
Definition propagated (ai : MinesweeperAI.t) : Prop :=
  ∀ s c, s ∈ MinesweeperAI.knowledge ai →
    c ∈ MinesweeperAI.safes ai ∪ MinesweeperAI.mines ai →
    c ∉ Sentence.cells s.

(** A cell the loops of [add_knowledge] around [cell] add to [neighbors]
    when they come to it. *)
Definition collected (ai : MinesweeperAI.t) (cell n : Cell) : Prop :=
  (n ≠ cell ∧ (0 ≤ n.1 < MinesweeperAI.height ai) ∧
   (0 ≤ n.2 < MinesweeperAI.width ai)) ∧
  ((n ∉ MinesweeperAI.safes ai) ∧ (n ∉ MinesweeperAI.mines ai)).

(** [cell] lies in the grid of the agent. *)
Definition in_bounds (ai : MinesweeperAI.t) (cell : Cell) : Prop :=
  (0 ≤ cell.1 < MinesweeperAI.height ai) ∧ (0 ≤ cell.2 < MinesweeperAI.width ai).

(** During the first loop of a pass, the last sentence of [knowledge] is
    a sentence about the cells [around] with count 0 from which the pass
    may have struck cells: the cells it has lost are in [safes] or in
    [mines], and its count is still 0 if none of [around] is in [mines]. *)
Definition pending (around : gset Cell) (ai : MinesweeperAI.t) : Prop :=
  ∃ s, last (MinesweeperAI.knowledge ai) = Some s ∧
    Sentence.cells s ⊆ around ∧
    (∀ n, n ∈ around → n ∉ Sentence.cells s →
       n ∈ MinesweeperAI.safes ai ∨ n ∈ MinesweeperAI.mines ai) ∧
    (around ∩ MinesweeperAI.mines ai = ∅ → Sentence.count s = 0).

(** The cells [around] are all in [safes], unless one of them is in
    [mines]. *)
Definition settled (around : gset Cell) (ai : MinesweeperAI.t) : Prop :=
  around ∩ MinesweeperAI.mines ai = ∅ → around ⊆ MinesweeperAI.safes ai.

(** Nothing the agent holds can make a pass mark a cell of [around] as a
    mine: none is in [mines], and every sentence either does not mention
    [around] or is a sentence with count 0 about cells of [around]. *)
Definition unthreatened (around : gset Cell) (ai : MinesweeperAI.t) : Prop :=
  around ∩ MinesweeperAI.mines ai = ∅ ∧
  ∀ s, s ∈ MinesweeperAI.knowledge ai →
    Sentence.cells s ## around ∨
    (Sentence.cells s ⊆ around ∧ Sentence.count s = 0).

#[global] Instance ensures_dec {A : Type} (m : outcome A) (Q : A → Prop)
  `{!∀ a, Decision (Q a)} : Decision (ensures m Q).
Proof. destruct m; simpl; apply _. Defined.

#[global] Instance disjoint_marks_dec (ai : MinesweeperAI.t) :
  Decision (disjoint_marks ai).
Proof. unfold disjoint_marks. apply _. Defined.

#[global] Instance in_bounds_dec (ai : MinesweeperAI.t) (cell : Cell) :
  Decision (in_bounds ai cell).
Proof. unfold in_bounds. apply _. Defined.

(** ** class Minesweeper

    The board itself.  [__init__] draws the cells of the mines at random
    in a loop that ends when it has placed as many as asked, and [print]
    writes to the terminal; the methods below are the ones that read the
    board. *)

(** [l[i]] for a Python list: a negative index counts from the end, and an
    index outside the list raises IndexError. *)
Definition list_getitem {A : Type} (l : list A) (i : Z) : outcome A :=
  let k := if decide (i < 0) then i + Z.of_nat (length l) else i in
  if decide (0 ≤ k) then
    match l !! Z.to_nat k with
    | Some x => Returned x
    | None => Raised IndexError
    end
  else Raised IndexError.

Module Minesweeper.

Record t : Type := mk {
  height : Z;
  width : Z;
  mines : gset Cell;
  board : list (list bool);
  mines_found : gset Cell
}.

(** [is_mine]: [i, j = cell], then [self.board[i][j]]. *)
Definition is_mine (self : t) (cell : Cell) : outcome bool :=
  let '(i, j) := cell in
  row ← list_getitem (board self) i;
  list_getitem row j.

(** [nearby_mines]: the two loops around [cell], with [continue] at the
    cell itself and the bounds test in front of [self.board[i][j]]. *)
Definition nearby_mines (self : t) (cell : Cell) : outcome Z :=
  for_each (λ count i,
    for_each (λ count j,
      if decide ((i, j) = cell) then mret count
      else if decide ((0 ≤ i < height self) ∧ (0 ≤ j < width self)) then
        row ← list_getitem (board self) i;
        is_mine ← list_getitem row j;
        if is_mine : bool then mret (count + 1) else mret count
      else mret count)
      count (range (cell.2 - 1) (cell.2 + 2)))
    0 (range (cell.1 - 1) (cell.1 + 2)).

(** [won]: [self.mines_found == self.mines]. *)
Definition won (self : t) : bool :=
  bool_decide (mines_found self = mines self).

End Minesweeper.

(** The board has [height] rows of [width] entries each. *)
Definition rectangular (g : Minesweeper.t) : Prop :=
  Z.of_nat (length (Minesweeper.board g)) = Minesweeper.height g ∧
  Forall (λ row, Z.of_nat (length row) = Minesweeper.width g) (Minesweeper.board g).

(** The cell lies inside the grid of the board and holds a mine. *)
Definition mine_at (g : Minesweeper.t) (c : Cell) : Prop :=
  (0 ≤ c.1 < Minesweeper.height g) ∧ (0 ≤ c.2 < Minesweeper.width g) ∧
  (Minesweeper.board g !! Z.to_nat c.1) ≫= (λ row, row !! Z.to_nat c.2) = Some true.

(** The cells the loops around [cell] visit, in their order: three rows of
    three, [cell] in the middle. *)
Definition window (cell : Cell) : list Cell :=
  i ← range (cell.1 - 1) (cell.1 + 2);
  j ← range (cell.2 - 1) (cell.2 + 2);
  [(i, j)].

#[global] Instance rectangular_dec (g : Minesweeper.t) : Decision (rectangular g).
Proof. unfold rectangular. apply _. Defined.

#[global] Instance mine_at_dec (g : Minesweeper.t) (c : Cell) : Decision (mine_at g c).
Proof. unfold mine_at. apply _. Defined.

(** The cells of the grid that hold a mine on the board, and the
    agreement of [self.mines] with the board that [__init__] keeps by
    adding a cell to one when it sets it in the other. *)
Definition mines_on_board (g : Minesweeper.t) : gset Cell :=
  list_to_set
    (filter (mine_at g)
       (i ← range 0 (Minesweeper.height g);
        j ← range 0 (Minesweeper.width g);
        [(i, j)])).

Definition consistent (g : Minesweeper.t) : Prop :=
  Minesweeper.mines g = mines_on_board g.

(** A 3 by 3 agent in the middle of a game: it has observed (0,0), holds
    (0,1) in [mines] and the sentence [{(1,0), (2,0)} = 1]. *)
Definition agent_mid_game : MinesweeperAI.t :=
  {| MinesweeperAI.height := 3; MinesweeperAI.width := 3;
     MinesweeperAI.moves_made := {[ (0,0) ]};
     MinesweeperAI.mines := {[ (0,1) ]};
     MinesweeperAI.safes := {[ (0,0) ]};
     MinesweeperAI.knowledge := [ Sentence.__init__ {[ (1,0); (2,0) ]} 1 ] |}.

#[global] Instance consistent_dec (g : Minesweeper.t) : Decision (consistent g).
Proof. unfold consistent. apply _. Defined.

(** A 3 by 3 board with mines at (0,1) and (2,0). *)
Definition small_board : Minesweeper.t :=
  {| Minesweeper.height := 3; Minesweeper.width := 3;
     Minesweeper.mines := {[ (0,1); (2,0) ]};
     Minesweeper.board :=
       [ [false; true; false]; [false; false; false]; [true; false; false] ];
     Minesweeper.mines_found := ∅ |}.

(** ** Knowledge that is true of a board

    [board_mines] is the set of cells of the board that hold a mine. *)

(** The sentence says what is the case: its count is the number of its
    cells that hold a mine. *)
Definition true_on (board_mines : gset Cell) (s : Sentence.t) : Prop :=
  Sentence.count s = Z.of_nat (size (Sentence.cells s ∩ board_mines)).

(** Everything the agent holds is true of the board: no cell of [safes]
    holds a mine, every cell of [mines] does, and every sentence of
    [knowledge] is true. *)
Definition sound (board_mines : gset Cell) (ai : MinesweeperAI.t) : Prop :=
  MinesweeperAI.safes ai ∩ board_mines = ∅ ∧
  MinesweeperAI.mines ai ⊆ board_mines ∧
  Forall (true_on board_mines) (MinesweeperAI.knowledge ai).

(** Every observation of the sequence is of a cell without a mine, and
    its count is the number of mines among the cells [add_knowledge] puts
    in the new sentence at that point. *)
Fixpoint truthful (board_mines : gset Cell) (self : MinesweeperAI.t)
    (obs : list (Cell * Z)) : bool :=
  match obs with
  | [] => true
  | o :: rest =>
      bool_decide (o.1 ∉ board_mines) &&
      bool_decide
        (o.2 = Z.of_nat (size (MinesweeperAI.neighbors self o.1 ∩ board_mines))) &&
      match MinesweeperAI.add_knowledge self o.1 o.2 with
      | Returned self' => truthful board_mines self' rest
      | Raised _ => false
      end
  end.

#[global] Instance true_on_dec (board_mines : gset Cell) (s : Sentence.t) :
  Decision (true_on board_mines s).
Proof. unfold true_on. apply _. Defined.

#[global] Instance sound_dec (board_mines : gset Cell) (ai : MinesweeperAI.t) :
  Decision (sound board_mines ai).
Proof. unfold sound. apply _. Defined.

(** * Proofs *)

(** ** Calls that may raise *)

Lemma ensures_Returned {A} (m : outcome A) (Q : A → Prop) :
  ensures m Q ↔ ∃ a, m = Returned a ∧ Q a.
Proof.
  destruct m as [a|e]; simpl; split.
  - intros HQ. by exists a.
  - intros (a' & [= ->] & HQ). done.
  - intros [].
  - intros (a' & [=] & _).
Qed.

Lemma ensures_mono {A} (m : outcome A) (P Q : A → Prop) :
  ensures m P → (∀ a, P a → Q a) → ensures m Q.
Proof. destruct m; simpl; auto. Qed.

Lemma ensures_bind {A B} (m : outcome A) (f : A → outcome B) (Q : B → Prop) :
  ensures m (λ a, ensures (f a) Q) → ensures (m ≫= f) Q.
Proof. destruct m; simpl; auto. Qed.

Lemma ensures_bind_inv {A B} (m : outcome A) (f : A → outcome B) (Q : B → Prop) :
  ensures (m ≫= f) Q → ensures m (λ a, ensures (f a) Q).
Proof. destruct m; simpl; auto. Qed.

Lemma ensures_and {A} (m : outcome A) (P Q : A → Prop) :
  ensures m P → ensures m Q → ensures m (λ a, P a ∧ Q a).
Proof. destruct m; simpl; auto. Qed.

Lemma for_each_Returned {S A} (body : S → A → outcome S) (step : S → A → S) :
  (∀ s x, body s x = Returned (step s x)) →
  ∀ items s, for_each body s items = Returned (foldl step s items).
Proof.
  intros Hbody items. induction items as [|x items IH]; intros s; simpl.
  - done.
  - rewrite Hbody. simpl. apply IH.
Qed.

Lemma for_each_ensures {S A} (body : S → A → outcome S) (P : S → Prop) :
  (∀ s x, P s → ensures (body s x) P) →
  ∀ items s, P s → ensures (for_each body s items) P.
Proof.
  intros Hbody items. induction items as [|x items IH]; intros s Hs; simpl.
  - done.
  - apply ensures_bind. eapply ensures_mono; [by apply Hbody|]. apply IH.
Qed.

Lemma for_each_app {S A} (body : S → A → outcome S) (xs ys : list A) (s : S) :
  for_each body s (xs ++ ys) = s' ← for_each body s xs; for_each body s' ys.
Proof.
  revert s. induction xs as [|x xs IH]; intros s; simpl.
  - done.
  - destruct (body s x) as [s'|e]; simpl; [apply IH | done].
Qed.

Lemma mapM_Returned {A B} (f : A → outcome B) (g : A → B) (l : list A) :
  (∀ x, f x = Returned (g x)) → mapM f l = Returned (g <$> l).
Proof.
  intros Hf. induction l as [|x l IH]; simpl.
  - done.
  - rewrite Hf. simpl. rewrite IH. done.
Qed.

(** ** Sentences *)

Lemma Sentence_eq_spec (s1 s2 : Sentence.t) :
  Sentence.__eq__ s1 s2 = true ↔ s1 = s2.
Proof.
  unfold Sentence.__eq__. rewrite andb_true_iff, !bool_decide_eq_true.
  destruct s1, s2; simpl. split.
  - intros [-> ->]. done.
  - intros [= -> ->]. done.
Qed.

Lemma Sentence_eq_false (s1 s2 : Sentence.t) :
  Sentence.__eq__ s1 s2 = false ↔ s1 ≠ s2.
Proof.
  rewrite <- Sentence_eq_spec. destruct (Sentence.__eq__ s1 s2); split; congruence.
Qed.

Lemma list_contains_spec (kb : list Sentence.t) (x : Sentence.t) :
  list_contains kb x = true ↔ x ∈ kb.
Proof.
  unfold list_contains. rewrite existsb_exists. split.
  - intros (e & Hin & Heq). apply Sentence_eq_spec in Heq as ->.
    by apply list_elem_of_In.
  - intros Hin. exists x. split; [by apply list_elem_of_In|].
    by apply Sentence_eq_spec.
Qed.

Lemma Sentence_mark_mine_eq (s : Sentence.t) (c : Cell) :
  Sentence.mark_mine s c = Returned (strike_mine s c).
Proof.
  unfold Sentence.mark_mine, strike_mine, set_remove.
  destruct (decide (c ∈ Sentence.cells s)); simpl; [|done].
  destruct (decide (c ∈ Sentence.cells s)); simpl; done.
Qed.

Lemma Sentence_mark_safe_eq (s : Sentence.t) (c : Cell) :
  Sentence.mark_safe s c = Returned (strike_safe s c).
Proof.
  unfold Sentence.mark_safe, strike_safe, set_remove.
  destruct (decide (c ∈ Sentence.cells s)); simpl; [|done].
  destruct (decide (c ∈ Sentence.cells s)); simpl; done.
Qed.

Lemma known_mines_self (s : Sentence.t) : (Sentence.known_mines s).2 = s.
Proof. unfold Sentence.known_mines. by case_decide. Qed.

Lemma known_safes_self (s : Sentence.t) : (Sentence.known_safes s).2 = s.
Proof. unfold Sentence.known_safes. by case_decide. Qed.

Lemma known_mines_subseteq (s : Sentence.t) :
  (Sentence.known_mines s).1 ⊆ Sentence.cells s.
Proof. unfold Sentence.known_mines. case_decide; simpl; set_solver. Qed.

Lemma known_safes_subseteq (s : Sentence.t) :
  (Sentence.known_safes s).1 ⊆ Sentence.cells s.
Proof. unfold Sentence.known_safes. case_decide; simpl; set_solver. Qed.

(** A sentence never yields known mines and known safes together. *)
Lemma known_mines_safes_disjoint (s : Sentence.t) :
  (Sentence.known_mines s).1 ∩ (Sentence.known_safes s).1 = ∅.
Proof.
  unfold Sentence.known_mines, Sentence.known_safes.
  repeat case_decide; simpl; try set_solver.
  assert (size (Sentence.cells s) = 0%nat) as Hsz by lia.
  apply size_empty_inv in Hsz. set_solver.
Qed.

Lemma strike_mine_cells (s : Sentence.t) (c : Cell) :
  Sentence.cells (strike_mine s c) = Sentence.cells s ∖ {[c]}.
Proof. unfold strike_mine. case_decide; simpl; set_solver. Qed.

Lemma strike_safe_cells (s : Sentence.t) (c : Cell) :
  Sentence.cells (strike_safe s c) = Sentence.cells s ∖ {[c]}.
Proof. unfold strike_safe. case_decide; simpl; set_solver. Qed.

Lemma strike_safe_count (s : Sentence.t) (c : Cell) :
  Sentence.count (strike_safe s c) = Sentence.count s.
Proof. unfold strike_safe. by case_decide. Qed.

(** ** The marking methods of the agent *)

Lemma mark_mine_eq (ai : MinesweeperAI.t) (c : Cell) :
  MinesweeperAI.mark_mine ai c = Returned (agent_strike_mine ai c).
Proof.
  unfold MinesweeperAI.mark_mine, agent_strike_mine.
  rewrite (mapM_Returned _ (λ s, strike_mine s c)); [done|].
  intros s. apply Sentence_mark_mine_eq.
Qed.

Lemma mark_safe_eq (ai : MinesweeperAI.t) (c : Cell) :
  MinesweeperAI.mark_safe ai c = Returned (agent_strike_safe ai c).
Proof.
  unfold MinesweeperAI.mark_safe, agent_strike_safe.
  rewrite (mapM_Returned _ (λ s, strike_safe s c)); [done|].
  intros s. apply Sentence_mark_safe_eq.
Qed.

(** The loop [mark_known], one round at a time. *)
Lemma mark_known_S (n i : nat) (ai : MinesweeperAI.t) :
  MinesweeperAI.mark_known (S n) i ai =
    match MinesweeperAI.knowledge ai !! i with
    | None => Returned ai
    | Some s => MinesweeperAI.mark_known n (S i) (settle ai s)
    end.
Proof.
  simpl. destruct (MinesweeperAI.knowledge ai !! i) as [s|] eqn:Hi; [|done].
  pose proof (known_mines_self s) as Hm. pose proof (known_safes_self s) as Hs.
  unfold settle.
  destruct (Sentence.known_mines s) as [km s1]. simpl in Hm. subst s1.
  destruct (Sentence.known_safes s) as [ks s2]. simpl in Hs. subst s2.
  rewrite list_insert_id by done.
  replace (MinesweeperAI.set_knowledge (MinesweeperAI.knowledge ai) ai) with ai
    by (by destruct ai).
  rewrite (for_each_Returned _ agent_strike_mine) by apply mark_mine_eq.
  simpl.
  rewrite (for_each_Returned _ agent_strike_safe) by apply mark_safe_eq.
  done.
Qed.

(** What the strikes keep and what they change. *)

Lemma agent_strike_mine_length ai c :
  length (MinesweeperAI.knowledge (agent_strike_mine ai c)) =
  length (MinesweeperAI.knowledge ai).
Proof. simpl. by rewrite length_fmap. Qed.

Lemma agent_strike_safe_length ai c :
  length (MinesweeperAI.knowledge (agent_strike_safe ai c)) =
  length (MinesweeperAI.knowledge ai).
Proof. simpl. by rewrite length_fmap. Qed.

(** A property kept by every single strike is kept by a round. *)
Lemma settle_keeps (P : MinesweeperAI.t → Prop) ai s :
  (∀ ai c, P ai → P (agent_strike_mine ai c)) →
  (∀ ai c, P ai → P (agent_strike_safe ai c)) →
  P ai → P (settle ai s).
Proof.
  intros Hm Hs Hai. unfold settle.
  assert (∀ l ai, P ai → P (foldl agent_strike_mine ai l)) as Hfm.
  { induction l as [|c l IH]; simpl; auto. }
  assert (∀ l ai, P ai → P (foldl agent_strike_safe ai l)) as Hfs.
  { induction l as [|c l IH]; simpl; auto. }
  auto.
Qed.

Lemma settle_length ai s :
  length (MinesweeperAI.knowledge (settle ai s)) =
  length (MinesweeperAI.knowledge ai).
Proof.
  apply (settle_keeps (λ ai', length (MinesweeperAI.knowledge ai') =
                               length (MinesweeperAI.knowledge ai))); [| |done].
  - intros ai' c <-. apply agent_strike_mine_length.
  - intros ai' c <-. apply agent_strike_safe_length.
Qed.

Lemma settle_frame ai s :
  MinesweeperAI.height (settle ai s) = MinesweeperAI.height ai ∧
  MinesweeperAI.width (settle ai s) = MinesweeperAI.width ai ∧
  MinesweeperAI.moves_made (settle ai s) = MinesweeperAI.moves_made ai.
Proof.
  apply (settle_keeps (λ ai',
    MinesweeperAI.height ai' = MinesweeperAI.height ai ∧
    MinesweeperAI.width ai' = MinesweeperAI.width ai ∧
    MinesweeperAI.moves_made ai' = MinesweeperAI.moves_made ai)); simpl; auto.
Qed.

(** The loop always returns, and keeps what every strike keeps. *)
Lemma mark_known_keeps (P : MinesweeperAI.t → Prop) :
  (∀ ai c, P ai → P (agent_strike_mine ai c)) →
  (∀ ai c, P ai → P (agent_strike_safe ai c)) →
  ∀ n i ai, P ai → ensures (MinesweeperAI.mark_known n i ai) P.
Proof.
  intros Hm Hs n. induction n as [|n IH]; intros i ai Hai.
  - done.
  - rewrite mark_known_S.
    destruct (MinesweeperAI.knowledge ai !! i) as [s|]; [|done].
    apply IH. by apply settle_keeps.
Qed.

Lemma mark_known_returns n i ai :
  ∃ ai', MinesweeperAI.mark_known n i ai = Returned ai'.
Proof.
  pose proof (mark_known_keeps (λ _, True)) as H.
  specialize (H (λ _ _ _, I) (λ _ _ _, I) n i ai I).
  apply ensures_Returned in H as (ai' & -> & _). by exists ai'.
Qed.

(** The rounds left never exceed the entries left: starting the loop with
    [len(self.knowledge)] rounds visits every entry, and more rounds would
    change nothing. *)
Lemma mark_known_enough (n m i : nat) (ai : MinesweeperAI.t) :
  (length (MinesweeperAI.knowledge ai) ≤ i + n)%nat → (n ≤ m)%nat →
  MinesweeperAI.mark_known m i ai = MinesweeperAI.mark_known n i ai.
Proof.
  revert m i ai. induction n as [|n IH]; intros m i ai Hlen Hnm.
  - destruct m as [|m]; [done|]. rewrite mark_known_S.
    rewrite lookup_ge_None_2 by lia. done.
  - destruct m as [|m]; [lia|]. rewrite !mark_known_S.
    destruct (MinesweeperAI.knowledge ai !! i) as [s|]; [|done].
    apply IH; [rewrite settle_length|]; lia.
Qed.

(** ** Closed forms of a round *)

Lemma foldl_strike_mine_cells (l : list Cell) (s : Sentence.t) :
  Sentence.cells (foldl strike_mine s l) = Sentence.cells s ∖ list_to_set l.
Proof.
  revert s. induction l as [|c l IH]; intros s; simpl.
  - set_solver.
  - rewrite IH, strike_mine_cells. set_solver.
Qed.

Lemma foldl_strike_safe_cells (l : list Cell) (s : Sentence.t) :
  Sentence.cells (foldl strike_safe s l) = Sentence.cells s ∖ list_to_set l.
Proof.
  revert s. induction l as [|c l IH]; intros s; simpl.
  - set_solver.
  - rewrite IH, strike_safe_cells. set_solver.
Qed.

Lemma foldl_strike_safe_count (l : list Cell) (s : Sentence.t) :
  Sentence.count (foldl strike_safe s l) = Sentence.count s.
Proof.
  revert s. induction l as [|c l IH]; intros s; simpl; [done|].
  by rewrite IH, strike_safe_count.
Qed.

Lemma foldl_strike_mine_fields (l : list Cell) (ai : MinesweeperAI.t) :
  MinesweeperAI.mines (foldl agent_strike_mine ai l) =
    list_to_set l ∪ MinesweeperAI.mines ai ∧
  MinesweeperAI.safes (foldl agent_strike_mine ai l) = MinesweeperAI.safes ai ∧
  MinesweeperAI.knowledge (foldl agent_strike_mine ai l) =
    (λ s, foldl strike_mine s l) <$> MinesweeperAI.knowledge ai.
Proof.
  revert ai. induction l as [|c l IH]; intros ai; simpl.
  - split_and!; [set_solver | done | by rewrite list_fmap_id].
  - destruct (IH (agent_strike_mine ai c)) as (-> & -> & ->). simpl.
    split_and!; [set_solver | done |].
    rewrite <- list_fmap_compose. done.
Qed.

Lemma foldl_strike_safe_fields (l : list Cell) (ai : MinesweeperAI.t) :
  MinesweeperAI.safes (foldl agent_strike_safe ai l) =
    list_to_set l ∪ MinesweeperAI.safes ai ∧
  MinesweeperAI.mines (foldl agent_strike_safe ai l) = MinesweeperAI.mines ai ∧
  MinesweeperAI.knowledge (foldl agent_strike_safe ai l) =
    (λ s, foldl strike_safe s l) <$> MinesweeperAI.knowledge ai.
Proof.
  revert ai. induction l as [|c l IH]; intros ai; simpl.
  - split_and!; [set_solver | done | by rewrite list_fmap_id].
  - destruct (IH (agent_strike_safe ai c)) as (-> & -> & ->). simpl.
    split_and!; [set_solver | done |].
    rewrite <- list_fmap_compose. done.
Qed.

(** After a round on [s]: the known mines of [s] have joined [mines], its
    known safes have joined [safes], and every sentence has lost both. *)
Lemma settle_fields (ai : MinesweeperAI.t) (s : Sentence.t) :
  let km := (Sentence.known_mines s).1 in
  let ks := (Sentence.known_safes s).1 in
  MinesweeperAI.mines (settle ai s) = km ∪ MinesweeperAI.mines ai ∧
  MinesweeperAI.safes (settle ai s) = ks ∪ MinesweeperAI.safes ai ∧
  MinesweeperAI.knowledge (settle ai s) =
    (λ s0, foldl strike_safe (foldl strike_mine s0 (elements km)) (elements ks))
      <$> MinesweeperAI.knowledge ai.
Proof.
  intros km ks. unfold settle. fold km ks.
  destruct (foldl_strike_safe_fields (elements ks)
              (foldl agent_strike_mine ai (elements km))) as (-> & -> & ->).
  destruct (foldl_strike_mine_fields (elements km) ai) as (-> & -> & ->).
  rewrite !list_to_set_elements_L. split_and!; [done | done |].
  rewrite <- list_fmap_compose. done.
Qed.

Lemma settle_cells (ai : MinesweeperAI.t) (s s' : Sentence.t) :
  s' ∈ MinesweeperAI.knowledge (settle ai s) →
  ∃ s0, s0 ∈ MinesweeperAI.knowledge ai ∧
    Sentence.cells s' =
      Sentence.cells s0 ∖ (Sentence.known_mines s).1 ∖ (Sentence.known_safes s).1.
Proof.
  destruct (settle_fields ai s) as (_ & _ & ->).
  intros (s0 & -> & Hs0)%list_elem_of_fmap. exists s0. split; [done|].
  rewrite foldl_strike_safe_cells, foldl_strike_mine_cells.
  by rewrite !list_to_set_elements_L.
Qed.

(** A round with nothing to mark changes nothing. *)
Lemma settle_idle (ai : MinesweeperAI.t) (s : Sentence.t) :
  (Sentence.known_mines s).1 = ∅ → (Sentence.known_safes s).1 = ∅ →
  settle ai s = ai.
Proof.
  intros Hm Hs. unfold settle. rewrite Hm, Hs, elements_empty. done.
Qed.

(** ** The two invariants, round by round *)

Lemma agent_strike_mine_propagated ai c :
  propagated ai → propagated (agent_strike_mine ai c).
Proof.
  intros Hp s' x. simpl. intros (s0 & -> & Hs0)%list_elem_of_fmap Hx.
  rewrite strike_mine_cells. specialize (Hp s0 x Hs0). set_solver.
Qed.

Lemma agent_strike_safe_propagated ai c :
  propagated ai → propagated (agent_strike_safe ai c).
Proof.
  intros Hp s' x. simpl. intros (s0 & -> & Hs0)%list_elem_of_fmap Hx.
  rewrite strike_safe_cells. specialize (Hp s0 x Hs0). set_solver.
Qed.

Lemma settle_propagated ai s : propagated ai → propagated (settle ai s).
Proof.
  intros Hp. apply settle_keeps; [| |done].
  - intros ai' c. apply agent_strike_mine_propagated.
  - intros ai' c. apply agent_strike_safe_propagated.
Qed.

Lemma settle_disjoint ai s :
  s ∈ MinesweeperAI.knowledge ai → propagated ai → disjoint_marks ai →
  disjoint_marks (settle ai s).
Proof.
  intros Hs Hp Hd. unfold disjoint_marks in *.
  destruct (settle_fields ai s) as (-> & -> & _).
  pose proof (known_mines_subseteq s) as Hkm.
  pose proof (known_safes_subseteq s) as Hks.
  pose proof (known_mines_safes_disjoint s) as Hmk.
  assert (∀ x, x ∈ Sentence.cells s →
    (x ∉ MinesweeperAI.safes ai) ∧ (x ∉ MinesweeperAI.mines ai)) as Hfree.
  { intros x Hx. specialize (Hp s x Hs). set_solver. }
  apply set_eq. intros x. split; [|set_solver].
  intros Hx. exfalso.
  apply elem_of_intersection in Hx as [[Hx1|Hx1]%elem_of_union [Hx2|Hx2]%elem_of_union].
  - set_solver.
  - apply Hks, Hfree in Hx1. tauto.
  - apply Hkm, Hfree in Hx2. tauto.
  - set_solver.
Qed.

(** The loop keeps what every round on a sentence of [knowledge] keeps. *)
Lemma mark_known_rounds (P : MinesweeperAI.t → Prop) :
  (∀ ai s, s ∈ MinesweeperAI.knowledge ai → P ai → P (settle ai s)) →
  ∀ n i ai, P ai → ensures (MinesweeperAI.mark_known n i ai) P.
Proof.
  intros Hround n. induction n as [|n IH]; intros i ai Hai.
  - done.
  - rewrite mark_known_S.
    destruct (MinesweeperAI.knowledge ai !! i) as [s|] eqn:Hi; [|done].
    apply IH, Hround; [|done]. by eapply list_elem_of_lookup_2.
Qed.

(** ** The pairwise step and the whole pass *)

Lemma elem_of_infer_pairs (kb : list Sentence.t) (s : Sentence.t) :
  s ∈ MinesweeperAI.infer_pairs kb ↔
  ∃ s1 s2, s1 ∈ kb ∧ s2 ∈ kb ∧ s1 ≠ s2 ∧
    Sentence.cells s1 ⊆ Sentence.cells s2 ∧
    s = Sentence.__init__ (Sentence.cells s2 ∖ Sentence.cells s1)
                          (Sentence.count s2 - Sentence.count s1) ∧
    s ∉ kb.
Proof.
  unfold MinesweeperAI.infer_pairs. rewrite list_elem_of_bind. split.
  - intros (s1 & Hs & Hs1). apply list_elem_of_bind in Hs as (s2 & Hs & Hs2).
    exists s1, s2.
    destruct (Sentence.__eq__ s1 s2) eqn:Heq; simpl in Hs;
      [by apply elem_of_nil in Hs|].
    apply Sentence_eq_false in Heq.
    case_bool_decide as Hsub; simpl in Hs; [|by apply elem_of_nil in Hs].
    destruct (list_contains kb _) eqn:Hin; simpl in Hs;
      [by apply elem_of_nil in Hs|].
    apply list_elem_of_singleton in Hs as ->.
    split_and!; try done.
    intros Hin'%list_contains_spec. congruence.
  - intros (s1 & s2 & Hs1 & Hs2 & Hne & Hsub & -> & Hnin).
    exists s1. split; [|done]. apply list_elem_of_bind. exists s2. split; [|done].
    apply Sentence_eq_false in Hne. rewrite Hne. simpl.
    rewrite bool_decide_eq_true_2 by done. simpl.
    destruct (list_contains kb _) eqn:Hin; simpl.
    + apply list_contains_spec in Hin. done.
    + apply list_elem_of_singleton. done.
Qed.

(** Every sentence the pairwise step appends differs from every sentence
    of the list it was run on. *)
Lemma infer_pairs_fresh (kb : list Sentence.t) (s : Sentence.t) :
  s ∈ MinesweeperAI.infer_pairs kb → s ∉ kb.
Proof. intros (_ & _ & _ & _ & _ & _ & _ & H)%elem_of_infer_pairs. done. Qed.

(** The pass: the first loop, then pruning, then the pairwise step.  It
    always returns. *)
Lemma apply_inference_eq (ai : MinesweeperAI.t) :
  ∃ ai1,
    MinesweeperAI.mark_known (length (MinesweeperAI.knowledge ai)) 0 ai = Returned ai1 ∧
    MinesweeperAI.apply_inference ai =
      Returned (MinesweeperAI.set_knowledge
        (pruned (MinesweeperAI.knowledge ai1) ++
         MinesweeperAI.infer_pairs (pruned (MinesweeperAI.knowledge ai1))) ai1).
Proof.
  destruct (mark_known_returns (length (MinesweeperAI.knowledge ai)) 0 ai)
    as [ai1 Hai1].
  exists ai1. split; [done|]. unfold MinesweeperAI.apply_inference.
  rewrite Hai1. done.
Qed.

(** What holds after the first loop and does not depend on [knowledge]
    holds after the pass. *)
Lemma apply_inference_ensures (P Q : MinesweeperAI.t → Prop) (ai : MinesweeperAI.t) :
  (∀ n i ai, P ai → ensures (MinesweeperAI.mark_known n i ai) P) →
  (∀ ai1, P ai1 →
     Q (MinesweeperAI.set_knowledge
          (pruned (MinesweeperAI.knowledge ai1) ++
           MinesweeperAI.infer_pairs (pruned (MinesweeperAI.knowledge ai1))) ai1)) →
  P ai → ensures (MinesweeperAI.apply_inference ai) Q.
Proof.
  intros Hloop Hrest Hai.
  destruct (apply_inference_eq ai) as (ai1 & Hai1 & ->). simpl.
  apply Hrest.
  specialize (Hloop (length (MinesweeperAI.knowledge ai)) 0%nat ai Hai).
  rewrite Hai1 in Hloop. done.
Qed.

Lemma apply_inference_propagated (ai : MinesweeperAI.t) :
  propagated ai → ensures (MinesweeperAI.apply_inference ai) propagated.
Proof.
  apply (apply_inference_ensures propagated).
  - apply mark_known_rounds. intros ai' s _. apply settle_propagated.
  - intros ai1 Hp s c. simpl. intros Hs Hc.
    assert (∀ s0, s0 ∈ pruned (MinesweeperAI.knowledge ai1) →
      c ∉ Sentence.cells s0) as Hold.
    { intros s0 [_ Hs0]%list_elem_of_filter. by apply Hp. }
    apply elem_of_app in Hs as [Hs|Hs]; [by apply Hold|].
    apply elem_of_infer_pairs in Hs as (s1 & s2 & _ & Hs2 & _ & _ & -> & _).
    simpl. apply Hold in Hs2. set_solver.
Qed.

Lemma apply_inference_invariant (ai : MinesweeperAI.t) :
  propagated ai → disjoint_marks ai →
  ensures (MinesweeperAI.apply_inference ai)
    (λ ai', propagated ai' ∧ disjoint_marks ai').
Proof.
  intros Hp Hd. apply ensures_and; [by apply apply_inference_propagated|].
  apply (apply_inference_ensures (λ ai', propagated ai' ∧ disjoint_marks ai')).
  - apply mark_known_rounds. intros ai' s Hs [Hp' Hd']. split.
    + by apply settle_propagated.
    + by apply settle_disjoint.
  - intros ai1 [_ Hd1]. done.
  - done.
Qed.

(** The pass only adds to [safes] and [mines], and leaves the grid and
    [moves_made] alone. *)
Lemma apply_inference_grows (ai : MinesweeperAI.t) :
  ensures (MinesweeperAI.apply_inference ai) (λ ai',
    MinesweeperAI.safes ai ⊆ MinesweeperAI.safes ai' ∧
    MinesweeperAI.mines ai ⊆ MinesweeperAI.mines ai' ∧
    MinesweeperAI.moves_made ai' = MinesweeperAI.moves_made ai ∧
    MinesweeperAI.height ai' = MinesweeperAI.height ai ∧
    MinesweeperAI.width ai' = MinesweeperAI.width ai).
Proof.
  apply (apply_inference_ensures (λ ai',
    MinesweeperAI.safes ai ⊆ MinesweeperAI.safes ai' ∧
    MinesweeperAI.mines ai ⊆ MinesweeperAI.mines ai' ∧
    MinesweeperAI.moves_made ai' = MinesweeperAI.moves_made ai ∧
    MinesweeperAI.height ai' = MinesweeperAI.height ai ∧
    MinesweeperAI.width ai' = MinesweeperAI.width ai)).
  - apply mark_known_keeps.
    + intros ai' c (? & ? & ? & ? & ?). simpl. split_and!; [done|set_solver|done..].
    + intros ai' c (? & ? & ? & ? & ?). simpl. split_and!; [set_solver|done..].
  - intros ai1 H. exact H.
  - split_and!; done.
Qed.

(** ** The neighbours collected by [add_knowledge] *)

Lemma elem_of_range (a b x : Z) : x ∈ range a b ↔ a ≤ x < b.
Proof. unfold range. rewrite elem_of_seqZ. lia. Qed.

Section Neighbors.
Variables (ai : MinesweeperAI.t) (cell : Cell).

Lemma neighbors_inner (i : Z) (js : list Z) (acc : gset Cell) (x : Cell) :
  x ∈ foldl (λ acc j,
      if decide ((i, j) ≠ cell ∧ (0 ≤ i < MinesweeperAI.height ai) ∧
                 (0 ≤ j < MinesweeperAI.width ai))
      then
        if decide (((i, j) ∉ MinesweeperAI.safes ai) ∧
                   ((i, j) ∉ MinesweeperAI.mines ai))
        then {[ (i, j) ]} ∪ acc
        else acc
      else acc) acc js
  ↔ x ∈ acc ∨ ∃ j, j ∈ js ∧ x = (i, j) ∧ collected ai cell (i, j).
Proof.
  revert acc. induction js as [|j js IH]; intros acc; simpl.
  - split; [by left|]. intros [H|(j & Hj & _)]; [done|]. by apply elem_of_nil in Hj.
  - rewrite IH. unfold collected. simpl.
    destruct (decide ((i, j) ≠ cell ∧ (0 ≤ i < MinesweeperAI.height ai) ∧
                      (0 ≤ j < MinesweeperAI.width ai))) as [Hin|Hout];
      [destruct (decide (((i, j) ∉ MinesweeperAI.safes ai) ∧
                         ((i, j) ∉ MinesweeperAI.mines ai))) as [Hfree|Hknown]|].
    + split.
      * intros [[->%elem_of_singleton|Hx]%elem_of_union|(j' & Hj' & Hx)].
        -- right. exists j. split; [by left|]. split; [done|tauto].
        -- by left.
        -- right. exists j'. split; [by right|done].
      * intros [Hx|(j' & [->|Hj']%elem_of_cons & -> & Hadm)].
        -- left. set_solver.
        -- left. set_solver.
        -- right. exists j'. done.
    + split.
      * intros [Hx|(j' & Hj' & Hx)]; [by left|].
        right. exists j'. split; [by right|done].
      * intros [Hx|(j' & [->|Hj']%elem_of_cons & -> & Hadm)]; [by left| |].
        -- tauto.
        -- right. exists j'. done.
    + split.
      * intros [Hx|(j' & Hj' & Hx)]; [by left|].
        right. exists j'. split; [by right|done].
      * intros [Hx|(j' & [->|Hj']%elem_of_cons & -> & Hadm)]; [by left| |].
        -- tauto.
        -- right. exists j'. done.
Qed.

Lemma elem_of_neighbors (x : Cell) :
  x ∈ MinesweeperAI.neighbors ai cell ↔
  (cell.1 - 1 ≤ x.1 ≤ cell.1 + 1) ∧ (cell.2 - 1 ≤ x.2 ≤ cell.2 + 1) ∧ collected ai cell x.
Proof.
  unfold MinesweeperAI.neighbors.
  assert (∀ (rows : list Z) (acc : gset Cell),
    x ∈ foldl (λ acc i,
      foldl (λ acc j,
        if decide ((i, j) ≠ cell ∧ (0 ≤ i < MinesweeperAI.height ai) ∧
                   (0 ≤ j < MinesweeperAI.width ai))
        then
          if decide (((i, j) ∉ MinesweeperAI.safes ai) ∧
                     ((i, j) ∉ MinesweeperAI.mines ai))
          then {[ (i, j) ]} ∪ acc
          else acc
        else acc) acc (range (cell.2 - 1) (cell.2 + 2))) acc rows
    ↔ x ∈ acc ∨ ∃ i, i ∈ rows ∧ x.1 = i ∧
        (cell.2 - 1 ≤ x.2 ≤ cell.2 + 1) ∧ collected ai cell x) as Houter.
  { induction rows as [|i rows IH]; intros acc; simpl.
    - split; [by left|]. intros [H|(i & Hi & _)]; [done|]. by apply elem_of_nil in Hi.
    - rewrite IH, neighbors_inner. split.
      + intros [[Hx|(j & Hj & -> & Hadm)]|(i' & Hi' & Hx)].
        * by left.
        * right. exists i. split; [by left|]. simpl.
          apply elem_of_range in Hj. split; [done|]. split; [lia|done].
        * right. exists i'. split; [by right|]. done.
      + intros [Hx|(i' & Hi' & Hx1 & Hx2 & Hadm)]; [by left; left|].
        apply elem_of_cons in Hi' as [->|Hi'].
        * left. right. exists x.2. rewrite elem_of_range.
          destruct x as [x1 x2]. simpl in *. subst. split; [lia|]. split; done.
        * right. exists i'. done. }
  rewrite Houter. split.
  - intros [Hx|(i & Hi%elem_of_range & Hx1 & Hx2 & Hadm)]; [set_solver|].
    split; [lia|]. split; done.
  - intros (Hx1 & Hx2 & Hadm). right. exists x.1. rewrite elem_of_range.
    split; [lia|]. split; [done|]. split; done.
Qed.

End Neighbors.

(** Around (2,2), on a grid of at least four rows and columns, the
    neighbours are the eight cells of [around_2_2] that are not yet known. *)
Lemma neighbors_2_2 (ai : MinesweeperAI.t) :
  4 ≤ MinesweeperAI.height ai → 4 ≤ MinesweeperAI.width ai →
  (∀ n, n ∈ around_2_2 →
     (n ∉ MinesweeperAI.safes ai) ∧ (n ∉ MinesweeperAI.mines ai)) →
  MinesweeperAI.neighbors ai (2, 2) = list_to_set around_2_2.
Proof.
  intros Hh Hw Hfree. apply set_eq. intros [i j].
  rewrite elem_of_neighbors, elem_of_list_to_set. unfold collected. simpl.
  split.
  - intros (Hi & Hj & (Hne & _ & _) & _).
    assert (i = 1 ∨ i = 2 ∨ i = 3) as Hi' by lia.
    assert (j = 1 ∨ j = 2 ∨ j = 3) as Hj' by lia.
    unfold around_2_2.
    destruct Hi' as [-> | [-> | ->]], Hj' as [-> | [-> | ->]];
      try done; set_solver.
  - intros Hin. pose proof (Hfree _ Hin) as [Hf1 Hf2].
    unfold around_2_2 in Hin.
    repeat (apply elem_of_cons in Hin as [Hin|Hin];
      [injection Hin as -> ->; repeat split; try done; try lia|]).
    by apply elem_of_nil in Hin.
Qed.

(** ** [add_knowledge] *)

Lemma add_knowledge_eq (ai : MinesweeperAI.t) (cell : Cell) (count : Z) :
  MinesweeperAI.add_knowledge ai cell count =
  MinesweeperAI.apply_inference (recorded ai cell count).
Proof.
  unfold MinesweeperAI.add_knowledge. rewrite mark_safe_eq. done.
Qed.

Lemma recorded_propagated ai cell count :
  propagated ai → propagated (recorded ai cell count).
Proof.
  intros Hp. unfold recorded.
  set (ai1 := agent_strike_safe _ cell).
  assert (propagated ai1) as Hp1.
  { apply agent_strike_safe_propagated. intros s c Hs Hc. by apply Hp. }
  intros s c. simpl. intros [Hs|Hs%list_elem_of_singleton]%elem_of_app Hc.
  - by apply Hp1.
  - subst s. simpl. rewrite elem_of_neighbors. unfold collected.
    intros (_ & _ & _ & Hsafe & Hmine). set_solver.
Qed.

Lemma recorded_disjoint ai cell count :
  cell ∉ MinesweeperAI.mines ai → disjoint_marks ai →
  disjoint_marks (recorded ai cell count).
Proof. unfold disjoint_marks, recorded. simpl. set_solver. Qed.

Lemma add_knowledge_propagated ai cell count :
  propagated ai →
  ensures (MinesweeperAI.add_knowledge ai cell count) propagated.
Proof.
  intros Hp. rewrite add_knowledge_eq.
  by apply apply_inference_propagated, recorded_propagated.
Qed.

Lemma add_knowledge_invariant ai cell count :
  propagated ai → disjoint_marks ai → cell ∉ MinesweeperAI.mines ai →
  ensures (MinesweeperAI.add_knowledge ai cell count)
    (λ ai', propagated ai' ∧ disjoint_marks ai').
Proof.
  intros Hp Hd Hc. rewrite add_knowledge_eq.
  apply apply_inference_invariant.
  - by apply recorded_propagated.
  - by apply recorded_disjoint.
Qed.

Lemma init_propagated h w : propagated (MinesweeperAI.__init__ h w).
Proof. intros s c Hs. simpl in Hs. by apply elem_of_nil in Hs. Qed.

Lemma init_disjoint h w : disjoint_marks (MinesweeperAI.__init__ h w).
Proof. unfold disjoint_marks. simpl. set_solver. Qed.

Lemma perform_propagated ai c :
  propagated ai → ensures (perform ai c) propagated.
Proof.
  intros Hp. destruct c as [cell count|cell|cell]; simpl.
  - by apply add_knowledge_propagated.
  - rewrite mark_mine_eq. simpl. by apply agent_strike_mine_propagated.
  - rewrite mark_safe_eq. simpl. by apply agent_strike_safe_propagated.
Qed.

Lemma observe_all_invariant obs : ∀ ai,
  propagated ai → disjoint_marks ai → avoids_known_mines ai obs = true →
  ensures (observe_all ai obs) (λ ai', propagated ai' ∧ disjoint_marks ai').
Proof.
  induction obs as [|[cell count] obs IH]; intros ai Hp Hd Hav.
  - done.
  - simpl in Hav. apply andb_true_iff in Hav as [Hc%bool_decide_eq_true Hav].
    pose proof (add_knowledge_invariant ai cell count Hp Hd Hc) as Hstep.
    unfold observe_all. simpl.
    destruct (MinesweeperAI.add_knowledge ai cell count) as [ai'|e]; [|done].
    simpl in *. destruct Hstep as [Hp' Hd']. by apply IH.
Qed.

(** * The properties of the engine *)

(** ** Sentence *)

(** C7. [known_mines] returns the cells of the sentence when
    [len(cells) == count] and the empty set otherwise; so a result that is
    not empty comes with [len(cells) == count] and is the cell set; and the
    call leaves the sentence, its cells and its count, as it was. *)
Theorem known_mines_spec (s : Sentence.t) :
  (Z.of_nat (size (Sentence.cells s)) = Sentence.count s →
     (Sentence.known_mines s).1 = Sentence.cells s) ∧
  (Z.of_nat (size (Sentence.cells s)) ≠ Sentence.count s →
     (Sentence.known_mines s).1 = ∅) ∧
  ((Sentence.known_mines s).1 ≠ ∅ →
     Z.of_nat (size (Sentence.cells s)) = Sentence.count s ∧
     (Sentence.known_mines s).1 = Sentence.cells s) ∧
  (Sentence.known_mines s).2 = s.
Proof.
  unfold Sentence.known_mines.
  destruct (decide (Z.of_nat (size (Sentence.cells s)) = Sentence.count s))
    as [Heq|Hne]; simpl; split_and!; try done.
Qed.

(** C8. [Sentence.mark_mine] on a member of [cells] returns, with the cell
    removed (one cell fewer) and [count] lowered by exactly 1; on a cell
    that is not a member it returns the sentence unchanged. *)
Theorem sentence_mark_mine_spec (s : Sentence.t) (c : Cell) :
  (c ∈ Sentence.cells s →
     ensures (Sentence.mark_mine s c) (λ s',
       Sentence.cells s' = Sentence.cells s ∖ {[c]} ∧
       (c ∉ Sentence.cells s') ∧
       size (Sentence.cells s) = S (size (Sentence.cells s')) ∧
       Sentence.count s' = Sentence.count s - 1)) ∧
  (c ∉ Sentence.cells s → Sentence.mark_mine s c = Returned s).
Proof.
  rewrite Sentence_mark_mine_eq. unfold strike_mine. split; intros Hc.
  - rewrite decide_True by done. simpl. split_and!; [done|set_solver| |done].
    rewrite size_difference by set_solver. rewrite size_singleton.
    assert (size (Sentence.cells s) ≠ 0%nat); [|lia].
    intros Hz%size_empty_inv. set_solver.
  - rewrite decide_False by done. done.
Qed.

(** ** Move selection *)

(** C9. [make_safe_move] returns a member of [safes − moves_made] whenever
    that difference is not empty, hence never a cell of [moves_made], and
    returns [None] exactly when the difference is empty. *)
Theorem make_safe_move_spec (ai : MinesweeperAI.t) :
  let unvisited := MinesweeperAI.safes ai ∖ MinesweeperAI.moves_made ai in
  (∀ c, (MinesweeperAI.make_safe_move ai).1 = Some c → c ∈ unvisited) ∧
  (unvisited ≠ ∅ → ∃ c, (MinesweeperAI.make_safe_move ai).1 = Some c ∧ c ∈ unvisited) ∧
  ((MinesweeperAI.make_safe_move ai).1 = None ↔ unvisited = ∅).
Proof.
  intros unvisited. unfold MinesweeperAI.make_safe_move. simpl.
  set (found := find _ _).
  assert (∀ c, found = Some c → c ∈ unvisited) as Hsome.
  { intros c [Hin Hc]%find_some.
    apply list_elem_of_In, elem_of_elements in Hin.
    apply bool_decide_eq_true in Hc. set_solver. }
  assert (found = None → unvisited = ∅) as Hnone.
  { intros Hnone. apply set_eq. intros c. split; [|set_solver].
    intros [Hs Hm]%elem_of_difference. exfalso.
    pose proof (find_none _ _ Hnone c) as Hc. simpl in Hc.
    rewrite bool_decide_eq_true_2 in Hc by done.
    discriminate Hc. by apply list_elem_of_In, elem_of_elements. }
  split_and!.
  - done.
  - intros Hne. destruct found as [c|] eqn:Hf.
    + exists c. split; [done|]. by apply Hsome.
    + by destruct Hne; apply Hnone.
  - split; [done|]. intros Hempty. destruct found as [c|] eqn:Hf; [|done].
    specialize (Hsome c eq_refl). rewrite Hempty in Hsome. set_solver.
Qed.

Lemma random_choice_returns {A} (draw : nat) (x : A) (l : list A) :
  ∃ y, random_choice draw (x :: l) = Returned y ∧ y ∈ x :: l.
Proof.
  unfold random_choice.
  destruct ((x :: l) !! (draw `mod` length (x :: l))%nat) as [y|] eqn:Hy.
  - exists y. split; [done|]. by eapply list_elem_of_lookup_2.
  - apply lookup_ge_None in Hy.
    pose proof (Nat.mod_upper_bound draw (length (x :: l))) as Hlt.
    simpl in *. lia.
Qed.

(** C10. [make_safe_move] and [make_random_move] only read the agent:
    whatever they return, the agent they leave is the agent they were
    called on, so the move they suggest is not in [moves_made] unless it
    was there before. *)
Theorem move_queries_leave_agent (ai : MinesweeperAI.t) :
  (MinesweeperAI.make_safe_move ai).2 = ai ∧
  ∀ draw, ensures (MinesweeperAI.make_random_move draw ai) (λ r, r.2 = ai).
Proof.
  split; [done|]. intros draw. unfold MinesweeperAI.make_random_move.
  match goal with |- context [random_choice draw ?l] => generalize l end.
  intros [|x l]; [done|].
  destruct (random_choice_returns draw x l) as (y & -> & _). done.
Qed.

(** ** Invariants of the agent *)

(** C4. After any sequence of calls of [add_knowledge], [mark_mine] and
    [mark_safe] on a new agent, the calls have all returned and no sentence
    of [knowledge] mentions a cell of [safes] or of [mines]. *)
Theorem eager_propagation (h w : Z) (cs : list call) :
  ensures (perform_all (MinesweeperAI.__init__ h w) cs) propagated.
Proof.
  apply for_each_ensures.
  - intros ai c. apply perform_propagated.
  - apply init_propagated.
Qed.

(** C3, as the code has it.  A sequence of [add_knowledge] calls on a new
    agent leaves [safes] and [mines] disjoint provided no call observes a
    cell that is in [mines] when the call is made. *)
Theorem disjoint_after_observations (h w : Z) (obs : list (Cell * Z)) :
  avoids_known_mines (MinesweeperAI.__init__ h w) obs = true →
  ensures (observe_all (MinesweeperAI.__init__ h w) obs) disjoint_marks.
Proof.
  intros Hav. eapply ensures_mono.
  - apply observe_all_invariant; [apply init_propagated|apply init_disjoint|done].
  - intros ai' [_ Hd]. done.
Qed.

Lemma disjoint_after_observations_witness :
  avoids_known_mines (MinesweeperAI.__init__ 8 8)
    [((0,0),1); ((0,1),3); ((2,0),2)] = true ∧
  ensures (observe_all (MinesweeperAI.__init__ 8 8)
    [((0,0),1); ((0,1),3); ((2,0),2)]) disjoint_marks.
Proof.
  split; [vm_compute; reflexivity|].
  apply (disjoint_after_observations 8 8). vm_compute. reflexivity.
Defined.

(** C3 as stated fails: observing a cell the agent has already marked as
    a mine puts it in [safes] as well.  The first call marks the three
    neighbours of (0,0) as mines, the second observes one of them. *)
Lemma disjoint_counterexample :
  ¬ ensures (observe_all (MinesweeperAI.__init__ 8 8) [((0,0),3); ((0,1),0)])
      disjoint_marks.
Proof. apply (bool_decide_eq_false_1 _). vm_compute. reflexivity. Qed.

(** ** Observations outside the grid *)

(** C5 as stated fails: on a new 8 by 8 agent, observing (-1,-1) with count
    0 raises nothing.  The call returns, (-1,-1) is a move made and a safe
    cell, and (0,0), its only neighbour inside the grid, has been marked
    safe from the new sentence. *)
Lemma out_of_bounds_counterexample :
  ¬ in_bounds (MinesweeperAI.__init__ 8 8) (-1, -1) ∧
  MinesweeperAI.add_knowledge (MinesweeperAI.__init__ 8 8) (-1, -1) 0 =
    Returned {| MinesweeperAI.height := 8; MinesweeperAI.width := 8;
                MinesweeperAI.moves_made := {[ (-1, -1) ]};
                MinesweeperAI.mines := ∅;
                MinesweeperAI.safes := {[ (-1, -1); (0, 0) ]};
                MinesweeperAI.knowledge := [] |} ∧
  ¬ ∃ e, MinesweeperAI.add_knowledge (MinesweeperAI.__init__ 8 8) (-1, -1) 0 = Raised e.
Proof.
  assert (MinesweeperAI.add_knowledge (MinesweeperAI.__init__ 8 8) (-1, -1) 0 =
    Returned {| MinesweeperAI.height := 8; MinesweeperAI.width := 8;
                MinesweeperAI.moves_made := {[ (-1, -1) ]};
                MinesweeperAI.mines := ∅;
                MinesweeperAI.safes := {[ (-1, -1); (0, 0) ]};
                MinesweeperAI.knowledge := [] |}) as Hrun.
  { vm_compute. reflexivity. }
  split_and!.
  - unfold in_bounds. simpl. lia.
  - exact Hrun.
  - intros [e He]. rewrite Hrun in He. discriminate He.
Qed.

(** ** An observation with count 0 *)

Section ZeroCount.
Variable around : gset Cell.

Lemma pending_strike_mine ai c :
  pending around ai → pending around (agent_strike_mine ai c).
Proof.
  intros (s & Hlast & Hsub & Hlost & Hcount).
  exists (strike_mine s c). simpl. rewrite fmap_last, Hlast. split; [done|].
  rewrite strike_mine_cells. split_and!.
  - set_solver.
  - intros n Hn Hnot. destruct (decide (n = c)) as [->|Hne]; [set_solver|].
    destruct (Hlost n Hn) as [?|?]; set_solver.
  - intros Hfree. unfold strike_mine.
    rewrite decide_False by set_solver. apply Hcount. set_solver.
Qed.

Lemma pending_strike_safe ai c :
  pending around ai → pending around (agent_strike_safe ai c).
Proof.
  intros (s & Hlast & Hsub & Hlost & Hcount).
  exists (strike_safe s c). simpl. rewrite fmap_last, Hlast. split; [done|].
  rewrite strike_safe_cells, strike_safe_count. split_and!.
  - set_solver.
  - intros n Hn Hnot. destruct (decide (n = c)) as [->|Hne]; [set_solver|].
    destruct (Hlost n Hn) as [?|?]; set_solver.
  - done.
Qed.

Lemma settled_strike_mine ai c :
  settled around ai → settled around (agent_strike_mine ai c).
Proof. unfold settled. simpl. set_solver. Qed.

Lemma settled_strike_safe ai c :
  settled around ai → settled around (agent_strike_safe ai c).
Proof. unfold settled. simpl. set_solver. Qed.

(** The round on the last sentence marks what is left of it as safe,
    unless its count is no longer 0. *)
Lemma pending_settle_last ai s :
  pending around ai → last (MinesweeperAI.knowledge ai) = Some s →
  settled around (settle ai s).
Proof.
  intros (s' & Hlast & Hsub & Hlost & Hcount) Hs.
  rewrite Hlast in Hs. injection Hs as ->.
  unfold settled. destruct (settle_fields ai s) as (-> & -> & _).
  intros Hfree n Hn.
  assert (around ∩ MinesweeperAI.mines ai = ∅) as Hfree0 by set_solver.
  specialize (Hcount Hfree0).
  assert ((Sentence.known_safes s).1 = Sentence.cells s) as ->.
  { unfold Sentence.known_safes. by rewrite decide_True. }
  destruct (decide (n ∈ Sentence.cells s)) as [Hin|Hnin]; [set_solver|].
  destruct (Hlost n Hn Hnin) as [?|?]; set_solver.
Qed.

Lemma foldl_strike_mine_absent (l : list Cell) (s : Sentence.t) :
  (∀ c, c ∈ l → c ∉ Sentence.cells s) → foldl strike_mine s l = s.
Proof.
  induction l as [|c l IH]; intros Hl; simpl; [done|].
  unfold strike_mine at 2. rewrite decide_False by (apply Hl; by left).
  apply IH. intros c' Hc'. apply Hl. by right.
Qed.

Lemma unthreatened_settle ai s :
  s ∈ MinesweeperAI.knowledge ai →
  unthreatened around ai → unthreatened around (settle ai s).
Proof.
  intros Hs [Hfree Hkb]. unfold unthreatened.
  destruct (settle_fields ai s) as (-> & _ & ->).
  assert ((Sentence.known_mines s).1 ## around) as Hkm.
  { pose proof (known_mines_subseteq s) as Hsub.
    destruct (Hkb s Hs) as [Hdisj|[_ Hzero]]; [set_solver|].
    unfold Sentence.known_mines. case_decide as Hsz; simpl; [|set_solver].
    assert (size (Sentence.cells s) = 0%nat) as Hz by lia.
    apply size_empty_inv in Hz. set_solver. }
  split; [set_solver|].
  intros s' (s0 & -> & Hs0)%list_elem_of_fmap.
  rewrite foldl_strike_safe_cells, foldl_strike_safe_count, foldl_strike_mine_cells.
  destruct (Hkb s0 Hs0) as [Hdisj|[Hsub Hzero]]; [left; set_solver|right].
  split; [set_solver|].
  rewrite foldl_strike_mine_absent; [done|].
  intros c Hc%elem_of_elements. set_solver.
Qed.

Lemma mark_known_last : ∀ n i ai,
  (i + n = length (MinesweeperAI.knowledge ai))%nat → (0 < n)%nat →
  pending around ai →
  ensures (MinesweeperAI.mark_known n i ai) (settled around).
Proof.
  induction n as [|n IH]; intros i ai Hlen Hpos Hpend; [lia|].
  rewrite mark_known_S.
  destruct (MinesweeperAI.knowledge ai !! i) as [s|] eqn:Hi.
  - destruct n as [|n].
    + simpl. apply pending_settle_last; [done|].
      rewrite last_lookup, <- Hi. f_equal. lia.
    + apply IH.
      * rewrite settle_length. lia.
      * lia.
      * apply settle_keeps; [| |done].
        -- intros ai' c. apply pending_strike_mine.
        -- intros ai' c. apply pending_strike_safe.
  - apply lookup_ge_None in Hi. lia.
Qed.

End ZeroCount.

(** C6, as the code has it.  On a grid of at least 5 rows and 5 columns,
    [add_knowledge((2,2), 0)] on an agent that holds none of the 8
    neighbours of (2,2) in [safes] or [mines] returns, and then either all
    8 neighbours are in [safes], or one of them is in [mines] (a sentence
    that was already in [knowledge] made the pass mark it first).  When no
    sentence of [knowledge] mentions any of the 8 neighbours, as on a new
    agent, all 8 are in [safes]. *)
Theorem zero_count_marks_neighbors (ai : MinesweeperAI.t) :
  5 ≤ MinesweeperAI.height ai → 5 ≤ MinesweeperAI.width ai →
  Forall (λ n, (n ∉ MinesweeperAI.safes ai) ∧ (n ∉ MinesweeperAI.mines ai))
    around_2_2 →
  ensures (MinesweeperAI.add_knowledge ai (2, 2) 0) (λ ai',
    (Forall (λ n, n ∈ MinesweeperAI.safes ai') around_2_2 ∨
     Exists (λ n, n ∈ MinesweeperAI.mines ai') around_2_2) ∧
    (Forall (λ s, Sentence.cells s ## list_to_set around_2_2)
       (MinesweeperAI.knowledge ai) →
     Forall (λ n, n ∈ MinesweeperAI.safes ai') around_2_2)).
Proof.
  intros Hh Hw Hfree. rewrite Forall_forall in Hfree.
  rewrite add_knowledge_eq.
  set (around := list_to_set around_2_2 : gset Cell).
  assert (pending around (recorded ai (2, 2) 0)) as Hpend.
  { unfold recorded. eexists. simpl. rewrite last_snoc. split; [done|]. simpl.
    rewrite neighbors_2_2; simpl; [|lia|lia|].
    - split_and!; [done| |done]. intros n Hn Hnot. done.
    - intros n Hn. destruct (Hfree n Hn) as [Hs Hm]. split; [|done].
      intros [Heq%elem_of_singleton|Hin]%elem_of_union; [|done].
      subst n. unfold around_2_2 in Hn.
      repeat (apply elem_of_cons in Hn as [Hn|Hn]; [discriminate Hn|]).
      by apply elem_of_nil in Hn. }
  destruct (apply_inference_eq (recorded ai (2, 2) 0)) as (ai1 & Hloop & ->).
  pose proof (mark_known_last around
    (length (MinesweeperAI.knowledge (recorded ai (2, 2) 0))) 0
    (recorded ai (2, 2) 0)) as Hlast.
  rewrite Hloop in Hlast. simpl in Hlast.
  assert (settled around ai1) as Hs.
  { apply Hlast; [done| |done]. rewrite length_app. simpl. lia. }
  clear Hlast. simpl. unfold settled in Hs.
  assert (around ∩ MinesweeperAI.mines ai1 = ∅ →
    Forall (λ n, n ∈ MinesweeperAI.safes ai1) around_2_2) as Hall.
  { intros Hnone. apply Forall_forall. intros n Hn.
    apply Hs; [done|by apply elem_of_list_to_set]. }
  split.
  - destruct (decide (Exists (λ n, n ∈ MinesweeperAI.mines ai1) around_2_2))
      as [Hex|Hnex]; [by right|left].
    apply Hall. apply set_eq. intros x. split; [|set_solver].
    intros [Hx1%elem_of_list_to_set Hx2]%elem_of_intersection.
    destruct Hnex. apply Exists_exists. by exists x.
  - intros Hkb. rewrite Forall_forall in Hkb. apply Hall.
    assert (unthreatened around (recorded ai (2, 2) 0)) as Hun.
    { split.
      - simpl. apply set_eq. intros x. split; [|set_solver].
        intros [Hx1%elem_of_list_to_set Hx2]%elem_of_intersection.
        destruct (Hfree x Hx1) as [_ Hm]. done.
      - destruct Hpend as (s & Hl & Hsub & _ & Hzero).
        unfold recorded in *. simpl in *. rewrite last_snoc in Hl.
        injection Hl as <-. simpl in *.
        intros s' [(s0 & -> & Hs0)%list_elem_of_fmap | ->%list_elem_of_singleton]%elem_of_app.
        + left. rewrite strike_safe_cells. specialize (Hkb s0 Hs0).
          fold around in Hkb. set_solver.
        + right. simpl. split; [done|done]. }
    pose proof (mark_known_rounds (unthreatened around)
      (λ ai' s, unthreatened_settle around ai' s)
      (length (MinesweeperAI.knowledge (recorded ai (2, 2) 0))) 0
      (recorded ai (2, 2) 0) Hun) as Hloop'.
    rewrite Hloop in Hloop'. simpl in Hloop'. by destruct Hloop'.
Qed.

Lemma zero_count_marks_neighbors_witness :
  5 ≤ MinesweeperAI.height (MinesweeperAI.__init__ 5 5) ∧
  5 ≤ MinesweeperAI.width (MinesweeperAI.__init__ 5 5) ∧
  Forall (λ n, (n ∉ MinesweeperAI.safes (MinesweeperAI.__init__ 5 5)) ∧
               (n ∉ MinesweeperAI.mines (MinesweeperAI.__init__ 5 5)))
    around_2_2 ∧
  ensures (MinesweeperAI.add_knowledge (MinesweeperAI.__init__ 5 5) (2, 2) 0)
    (λ ai',
      (Forall (λ n, n ∈ MinesweeperAI.safes ai') around_2_2 ∨
       Exists (λ n, n ∈ MinesweeperAI.mines ai') around_2_2) ∧
      (Forall (λ s, Sentence.cells s ## list_to_set around_2_2)
         (MinesweeperAI.knowledge (MinesweeperAI.__init__ 5 5)) →
       Forall (λ n, n ∈ MinesweeperAI.safes ai') around_2_2)).
Proof.
  assert (5 ≤ MinesweeperAI.height (MinesweeperAI.__init__ 5 5)) as Hh
    by (simpl; lia).
  assert (5 ≤ MinesweeperAI.width (MinesweeperAI.__init__ 5 5)) as Hw
    by (simpl; lia).
  assert (Forall (λ n, (n ∉ MinesweeperAI.safes (MinesweeperAI.__init__ 5 5)) ∧
                       (n ∉ MinesweeperAI.mines (MinesweeperAI.__init__ 5 5)))
            around_2_2) as Hfree.
  { apply (bool_decide_unpack _). vm_compute. exact I. }
  split_and!; [exact Hh | exact Hw | exact Hfree |].
  exact (zero_count_marks_neighbors (MinesweeperAI.__init__ 5 5) Hh Hw Hfree).
Defined.

(** C6 as stated fails.  After [add_knowledge((0,0), 1)] and
    [add_knowledge((0,1), 3)] on a new 5 by 5 agent, none of the 8
    neighbours of (2,2) is in [safes] or [mines], but [knowledge] holds the
    inferred sentence [{(0,2), (1,2)} = 2].  During
    [add_knowledge((2,2), 0)] the pass comes to that sentence first and
    marks (1,2) as a mine; the new sentence is left with 7 cells and count
    -1, and its cells are not marked safe. *)
Lemma zero_count_counterexample :
  observe_all (MinesweeperAI.__init__ 5 5) [((0,0),1); ((0,1),3)] =
    Returned agent_after_two ∧
  5 ≤ MinesweeperAI.height agent_after_two ∧
  5 ≤ MinesweeperAI.width agent_after_two ∧
  Forall (λ n, (n ∉ MinesweeperAI.safes agent_after_two) ∧
               (n ∉ MinesweeperAI.mines agent_after_two)) around_2_2 ∧
  ¬ ensures (MinesweeperAI.add_knowledge agent_after_two (2, 2) 0)
      (λ ai', Forall (λ n, n ∈ MinesweeperAI.safes ai') around_2_2).
Proof.
  split_and!.
  - vm_compute. reflexivity.
  - simpl. lia.
  - simpl. lia.
  - apply (bool_decide_unpack _). vm_compute. exact I.
  - apply (bool_decide_eq_false_1 _). vm_compute. reflexivity.
Qed.

(** ** Subset inference on [{a, b} = 1] and [{a, b, c} = 2] *)

Section SubsetInference.
Variables a b c : Cell.
Hypothesis Hab : a ≠ b.
Hypothesis Hac : a ≠ c.
Hypothesis Hbc : b ≠ c.

Lemma size_pair : size ({[a; b]} : gset Cell) = 2%nat.
Proof.
  rewrite size_union by set_solver. by rewrite !size_singleton.
Qed.

Lemma size_triple : size ({[a; b; c]} : gset Cell) = 3%nat.
Proof.
  rewrite size_union by set_solver. rewrite size_union by set_solver.
  by rewrite !size_singleton.
Qed.

Lemma pair_sentence_idle ai : settle ai (pair_sentence a b) = ai.
Proof.
  apply settle_idle.
  - unfold Sentence.known_mines, pair_sentence, Sentence.__init__.
    cbn [Sentence.cells Sentence.count]. rewrite size_pair.
    by rewrite decide_False by lia.
  - done.
Qed.

Lemma triple_sentence_idle ai : settle ai (triple_sentence a b c) = ai.
Proof.
  apply settle_idle.
  - unfold Sentence.known_mines, triple_sentence, Sentence.__init__.
    cbn [Sentence.cells Sentence.count]. rewrite size_triple.
    by rewrite decide_False by lia.
  - done.
Qed.

Lemma single_sentence_settle ai :
  settle ai (single_sentence c) = agent_strike_mine ai c.
Proof.
  unfold settle, Sentence.known_mines, Sentence.known_safes, single_sentence,
    Sentence.__init__.
  cbn [Sentence.cells Sentence.count]. rewrite size_singleton.
  rewrite decide_True by lia. rewrite decide_False by lia.
  cbn [fst]. by rewrite elements_singleton, elements_empty.
Qed.

Lemma pair_triple_differ : pair_sentence a b ≠ triple_sentence a b c.
Proof. intros [= _]. Qed.

Lemma triple_minus_pair :
  Sentence.__init__
    (Sentence.cells (triple_sentence a b c) ∖ Sentence.cells (pair_sentence a b))
    (Sentence.count (triple_sentence a b c) - Sentence.count (pair_sentence a b))
  = single_sentence c.
Proof.
  unfold single_sentence, Sentence.__init__. simpl. f_equal. set_solver.
Qed.

Lemma single_sentence_new (kb : list Sentence.t) :
  kb = [pair_sentence a b; triple_sentence a b c] ∨
  kb = [triple_sentence a b c; pair_sentence a b] →
  list_contains kb (single_sentence c) = false.
Proof.
  intros Hkb. destruct (list_contains kb (single_sentence c)) eqn:Hin; [|done].
  apply list_contains_spec in Hin. exfalso.
  assert (single_sentence c ≠ pair_sentence a b) as H1.
  { intros Heq. assert (a ∈ Sentence.cells (single_sentence c)) as Ha.
    { rewrite Heq. unfold pair_sentence, Sentence.__init__.
      cbn [Sentence.cells]. set_solver. }
    unfold single_sentence, Sentence.__init__ in Ha. cbn [Sentence.cells] in Ha.
    set_solver. }
  assert (single_sentence c ≠ triple_sentence a b c) as H2.
  { intros [= _]. }
  destruct Hkb as [-> | ->]; set_solver.
Qed.

(** The pairwise step on the two sentences, in either order, appends
    [{c} = 1] and nothing else. *)
Lemma infer_pairs_pair_triple (kb : list Sentence.t) :
  kb = [pair_sentence a b; triple_sentence a b c] ∨
  kb = [triple_sentence a b c; pair_sentence a b] →
  MinesweeperAI.infer_pairs kb = [single_sentence c].
Proof.
  intros Hkb. pose proof (single_sentence_new kb Hkb) as Hnew.
  assert (Sentence.__eq__ (pair_sentence a b) (pair_sentence a b) = true) as Epp
    by (by apply Sentence_eq_spec).
  assert (Sentence.__eq__ (triple_sentence a b c) (triple_sentence a b c) = true) as Ett
    by (by apply Sentence_eq_spec).
  assert (Sentence.__eq__ (pair_sentence a b) (triple_sentence a b c) = false) as Ept
    by (apply Sentence_eq_false, pair_triple_differ).
  assert (Sentence.__eq__ (triple_sentence a b c) (pair_sentence a b) = false) as Etp.
  { apply Sentence_eq_false. intros H. by apply pair_triple_differ. }
  assert (bool_decide (Sentence.cells (pair_sentence a b) ⊆
                       Sentence.cells (triple_sentence a b c)) = true) as Spt.
  { apply bool_decide_eq_true_2. simpl. set_solver. }
  assert (bool_decide (Sentence.cells (triple_sentence a b c) ⊆
                       Sentence.cells (pair_sentence a b)) = false) as Stp.
  { apply bool_decide_eq_false_2. simpl. intros Hsub.
    assert (c ∈ ({[a; b]} : gset Cell)) by set_solver. set_solver. }
  unfold MinesweeperAI.infer_pairs in *.
  destruct Hkb as [-> | ->]; cbn [mbind list_bind app];
    rewrite ?Epp, ?Ett, ?Ept, ?Etp, ?Spt, ?Stp; cbn [negb andb app];
    rewrite triple_minus_pair, Hnew; done.
Qed.

Lemma pruned_pair_triple (kb : list Sentence.t) :
  kb = [pair_sentence a b; triple_sentence a b c] ∨
  kb = [triple_sentence a b c; pair_sentence a b] →
  pruned kb = kb.
Proof.
  intros [-> | ->]; unfold pruned; rewrite !filter_cons, filter_nil;
    unfold pair_sentence, triple_sentence, Sentence.__init__;
    cbn [Sentence.cells]; rewrite size_pair, size_triple;
    rewrite !decide_True by lia; done.
Qed.

(** The first loop on the two sentences, in either order, marks nothing. *)
Lemma mark_known_pair_triple (ai : MinesweeperAI.t) :
  MinesweeperAI.knowledge ai = [pair_sentence a b; triple_sentence a b c] ∨
  MinesweeperAI.knowledge ai = [triple_sentence a b c; pair_sentence a b] →
  MinesweeperAI.mark_known 2 0 ai = Returned ai.
Proof.
  intros [Hkb | Hkb].
  - rewrite mark_known_S, Hkb; cbn [lookup list_lookup app]; rewrite pair_sentence_idle.
    rewrite mark_known_S, Hkb; cbn [lookup list_lookup app]; rewrite triple_sentence_idle. done.
  - rewrite mark_known_S, Hkb; cbn [lookup list_lookup app]; rewrite triple_sentence_idle.
    rewrite mark_known_S, Hkb; cbn [lookup list_lookup app]; rewrite pair_sentence_idle. done.
Qed.

(** The first loop of the next pass comes to [{c} = 1] and marks [c]. *)
Lemma mark_known_with_single (ai : MinesweeperAI.t) (kb : list Sentence.t) :
  kb = [pair_sentence a b; triple_sentence a b c] ∨
  kb = [triple_sentence a b c; pair_sentence a b] →
  MinesweeperAI.knowledge ai = kb ++ [single_sentence c] →
  MinesweeperAI.mark_known 3 0 ai = Returned (agent_strike_mine ai c).
Proof.
  intros [-> | ->] Hkb; cbn [app] in Hkb.
  - rewrite mark_known_S, Hkb; cbn [lookup list_lookup app]; rewrite pair_sentence_idle.
    rewrite mark_known_S, Hkb; cbn [lookup list_lookup app]; rewrite triple_sentence_idle.
    rewrite mark_known_S, Hkb; cbn [lookup list_lookup app]; rewrite single_sentence_settle. done.
  - rewrite mark_known_S, Hkb; cbn [lookup list_lookup app]; rewrite triple_sentence_idle.
    rewrite mark_known_S, Hkb; cbn [lookup list_lookup app]; rewrite pair_sentence_idle.
    rewrite mark_known_S, Hkb; cbn [lookup list_lookup app]; rewrite single_sentence_settle. done.
Qed.

End SubsetInference.

(** When [knowledge] is the two sentences [{a, b} = 1] and
    [{a, b, c} = 2] and nothing else, in either order, one run of
    [apply_inference] appends [{c} = 1] and leaves [mines] and [safes] as
    they were: the loop that marks known mines runs before the pairwise
    step.  A second run puts [c] in [mines]. *)
Lemma pair_and_triple_alone (ai : MinesweeperAI.t) (a b c : Cell) :
  a ≠ b → a ≠ c → b ≠ c →
  MinesweeperAI.knowledge ai = [pair_sentence a b; triple_sentence a b c] ∨
  MinesweeperAI.knowledge ai = [triple_sentence a b c; pair_sentence a b] →
  ∃ ai1,
    MinesweeperAI.apply_inference ai = Returned ai1 ∧
    MinesweeperAI.knowledge ai1 = MinesweeperAI.knowledge ai ++ [single_sentence c] ∧
    MinesweeperAI.mines ai1 = MinesweeperAI.mines ai ∧
    MinesweeperAI.safes ai1 = MinesweeperAI.safes ai ∧
    ensures (MinesweeperAI.apply_inference ai1) (λ ai2,
      c ∈ MinesweeperAI.mines ai2 ∧
      MinesweeperAI.mines ai2 = {[c]} ∪ MinesweeperAI.mines ai).
Proof.
  intros Hab Hac Hbc Hkb.
  exists (MinesweeperAI.set_knowledge
            (MinesweeperAI.knowledge ai ++ [single_sentence c]) ai).
  split_and!; try done.
  - destruct (apply_inference_eq ai) as (ai1 & Hloop & ->).
    assert (length (MinesweeperAI.knowledge ai) = 2%nat) as Hlen
      by (by destruct Hkb as [-> | ->]).
    rewrite Hlen, (mark_known_pair_triple a b c) in Hloop by done.
    injection Hloop as <-.
    rewrite (pruned_pair_triple a b c) by done.
    rewrite (infer_pairs_pair_triple a b c) by done. done.
  - set (ai1 := MinesweeperAI.set_knowledge _ ai).
    destruct (apply_inference_eq ai1) as (ai2 & Hloop & ->).
    assert (length (MinesweeperAI.knowledge ai1) = 3%nat) as Hlen.
    { unfold ai1. simpl. rewrite length_app. by destruct Hkb as [-> | ->]. }
    rewrite Hlen in Hloop.
    rewrite (mark_known_with_single a b c Hab Hac Hbc ai1
               (MinesweeperAI.knowledge ai)) in Hloop by done.
    injection Hloop as <-. simpl. split; [set_solver|done].
Qed.

(** C1 as stated fails.  The 8 by 8 agent whose [knowledge] is
    [{(0,0), (0,1)} = 1] and [{(0,0), (0,1), (0,2)} = 2], with nothing in
    [safes] and [mines], meets the premises; one run of [apply_inference]
    appends [{(0,2)} = 1] to [knowledge] but leaves (0,2) out of [mines]. *)
Lemma subset_inference_counterexample :
  let ai := agent_with_pair_and_triple in
  let a : Cell := (0,0) in
  let b : Cell := (0,1) in
  let c : Cell := (0,2) in
  (a ≠ b ∧ a ≠ c ∧ b ≠ c) ∧
  Forall (λ x, in_bounds ai x ∧ (x ∉ MinesweeperAI.safes ai) ∧
               (x ∉ MinesweeperAI.mines ai)) [a; b; c] ∧
  pair_sentence a b ∈ MinesweeperAI.knowledge ai ∧
  triple_sentence a b c ∈ MinesweeperAI.knowledge ai ∧
  ensures (MinesweeperAI.apply_inference ai) (λ ai',
    single_sentence c ∈ MinesweeperAI.knowledge ai' ∧
    c ∉ MinesweeperAI.mines ai') ∧
  ¬ ensures (MinesweeperAI.apply_inference ai) (λ ai',
    single_sentence c ∈ MinesweeperAI.knowledge ai' ∧
    c ∈ MinesweeperAI.mines ai').
Proof.
  cbv zeta. split_and!.
  - discriminate.
  - discriminate.
  - discriminate.
  - apply (bool_decide_unpack _). vm_compute. exact I.
  - apply (bool_decide_unpack _). vm_compute. exact I.
  - apply (bool_decide_unpack _). vm_compute. exact I.
  - apply (bool_decide_unpack _). vm_compute. exact I.
  - apply (bool_decide_eq_false_1 _). vm_compute. reflexivity.
Qed.

(** ** Sentences inferred twice in one pass *)

(** C2 at a failing input.  A new 8 by 8 agent observes (0,0) with count
    1, (0,1) with count 3 and (2,0) with count 2.  The pass of the third
    call keeps three sentences, two of them equal ([{(1,0), (1,1)} = 1]
    twice); each of the two, paired with the sentence about the neighbours
    of (2,0), yields [{(2,1), (3,0), (3,1)} = 1].  The test before the
    append looks in [knowledge] only, not in [new_knowledge], so the pass
    appends that sentence twice. *)
Theorem inferred_sentence_appended_twice :
  let kept :=
    [ Sentence.__init__ {[ (1,0); (1,1) ]} 1;
      Sentence.__init__ {[ (1,0); (1,1) ]} 1;
      Sentence.__init__ {[ (1,0); (1,1); (2,1); (3,0); (3,1) ]} 2 ] in
  let inferred := Sentence.__init__ {[ (2,1); (3,0); (3,1) ]} 1 in
  observe_all (MinesweeperAI.__init__ 8 8) [((0,0),1); ((0,1),3); ((2,0),2)] =
    Returned {| MinesweeperAI.height := 8; MinesweeperAI.width := 8;
                MinesweeperAI.moves_made := {[ (0,0); (0,1); (2,0) ]};
                MinesweeperAI.mines := {[ (0,2); (1,2) ]};
                MinesweeperAI.safes := {[ (0,0); (0,1); (2,0) ]};
                MinesweeperAI.knowledge := kept ++ [inferred; inferred] |} ∧
  MinesweeperAI.infer_pairs kept = [inferred; inferred] ∧
  (inferred ∉ kept) ∧
  ¬ NoDup (MinesweeperAI.infer_pairs kept).
Proof.
  cbv zeta. split_and!.
  - vm_compute. reflexivity.
  - vm_compute. reflexivity.
  - apply (bool_decide_unpack _). vm_compute. exact I.
  - apply (bool_decide_eq_false_1 _). vm_compute. reflexivity.
Qed.

(** * Further properties of the engine *)

(** ** Sentence: the other certainty and the other strike *)

(** A sentence never reports known mines and known safes at once:
    whatever its cells and count, one of the two results is empty. *)
Theorem known_mines_or_known_safes_empty (s : Sentence.t) :
  (Sentence.known_mines s).1 = ∅ ∨ (Sentence.known_safes s).1 = ∅.
Proof.
  unfold Sentence.known_mines, Sentence.known_safes.
  destruct (decide (Z.of_nat (size (Sentence.cells s)) = Sentence.count s))
    as [Hsz|Hsz]; [|by left].
  destruct (decide (Sentence.count s = 0)) as [Hz|Hz]; [|by right].
  left. cbn [fst]. apply leibniz_equiv, size_empty_inv. lia.
Qed.

(** [Sentence.mark_safe] on a member of [cells] returns with the cell
    removed (one cell fewer) and [count] as it was; on a cell that is not a
    member it returns the sentence unchanged.  It never raises. *)
Theorem sentence_mark_safe_spec (s : Sentence.t) (c : Cell) :
  (c ∈ Sentence.cells s →
     ensures (Sentence.mark_safe s c) (λ s',
       Sentence.cells s' = Sentence.cells s ∖ {[c]} ∧
       (c ∉ Sentence.cells s') ∧
       size (Sentence.cells s) = S (size (Sentence.cells s')) ∧
       Sentence.count s' = Sentence.count s)) ∧
  (c ∉ Sentence.cells s → Sentence.mark_safe s c = Returned s).
Proof.
  rewrite Sentence_mark_safe_eq. unfold strike_safe. split; intros Hc.
  - rewrite decide_True by done. simpl. split_and!; [done|set_solver| |done].
    rewrite size_difference by set_solver. rewrite size_singleton.
    assert (size (Sentence.cells s) ≠ 0%nat); [|lia].
    intros Hz%size_empty_inv. set_solver.
  - rewrite decide_False by done. done.
Qed.

(** ** The marking methods of the agent *)

(** [MinesweeperAI.mark_mine] returns for every cell: the cell has joined
    [mines], the other fields of the agent are as they were, [knowledge]
    has the same length, and its entry at each index is what
    [Sentence.mark_mine] makes of the entry that was there. *)
Theorem agent_mark_mine_spec (ai : MinesweeperAI.t) (c : Cell) :
  ensures (MinesweeperAI.mark_mine ai c) (λ ai',
    MinesweeperAI.mines ai' = {[c]} ∪ MinesweeperAI.mines ai ∧
    MinesweeperAI.safes ai' = MinesweeperAI.safes ai ∧
    MinesweeperAI.moves_made ai' = MinesweeperAI.moves_made ai ∧
    MinesweeperAI.height ai' = MinesweeperAI.height ai ∧
    MinesweeperAI.width ai' = MinesweeperAI.width ai ∧
    length (MinesweeperAI.knowledge ai') = length (MinesweeperAI.knowledge ai) ∧
    (∀ i s, MinesweeperAI.knowledge ai !! i = Some s →
       ∃ s', MinesweeperAI.knowledge ai' !! i = Some s' ∧
             Sentence.mark_mine s c = Returned s') ∧
    (∀ s', s' ∈ MinesweeperAI.knowledge ai' → c ∉ Sentence.cells s')).
Proof.
  rewrite mark_mine_eq. simpl. split_and!; try done.
  - by rewrite length_fmap.
  - intros i s Hi. exists (strike_mine s c). split.
    + by rewrite list_lookup_fmap, Hi.
    + apply Sentence_mark_mine_eq.
  - intros s' (s0 & -> & _)%list_elem_of_fmap. rewrite strike_mine_cells.
    set_solver.
Qed.

(** [MinesweeperAI.mark_safe] returns for every cell: the cell has joined
    [safes], the other fields of the agent are as they were, [knowledge]
    has the same length, and its entry at each index is what
    [Sentence.mark_safe] makes of the entry that was there. *)
Theorem agent_mark_safe_spec (ai : MinesweeperAI.t) (c : Cell) :
  ensures (MinesweeperAI.mark_safe ai c) (λ ai',
    MinesweeperAI.safes ai' = {[c]} ∪ MinesweeperAI.safes ai ∧
    MinesweeperAI.mines ai' = MinesweeperAI.mines ai ∧
    MinesweeperAI.moves_made ai' = MinesweeperAI.moves_made ai ∧
    MinesweeperAI.height ai' = MinesweeperAI.height ai ∧
    MinesweeperAI.width ai' = MinesweeperAI.width ai ∧
    length (MinesweeperAI.knowledge ai') = length (MinesweeperAI.knowledge ai) ∧
    (∀ i s, MinesweeperAI.knowledge ai !! i = Some s →
       ∃ s', MinesweeperAI.knowledge ai' !! i = Some s' ∧
             Sentence.mark_safe s c = Returned s') ∧
    (∀ s', s' ∈ MinesweeperAI.knowledge ai' → c ∉ Sentence.cells s')).
Proof.
  rewrite mark_safe_eq. simpl. split_and!; try done.
  - by rewrite length_fmap.
  - intros i s Hi. exists (strike_safe s c). split.
    + by rewrite list_lookup_fmap, Hi.
    + apply Sentence_mark_safe_eq.
  - intros s' (s0 & -> & _)%list_elem_of_fmap. rewrite strike_safe_cells.
    set_solver.
Qed.

Lemma sentence_eq_fields (s1 s2 : Sentence.t) :
  Sentence.cells s1 = Sentence.cells s2 → Sentence.count s1 = Sentence.count s2 →
  s1 = s2.
Proof. destruct s1, s2. cbn [Sentence.cells Sentence.count]. by intros -> ->. Qed.

Lemma strike_mine_count (s : Sentence.t) (c : Cell) :
  Sentence.count (strike_mine s c) =
  if decide (c ∈ Sentence.cells s) then Sentence.count s - 1 else Sentence.count s.
Proof. unfold strike_mine. by case_decide. Qed.

Lemma strike_mine_comm (s : Sentence.t) (c1 c2 : Cell) :
  strike_mine (strike_mine s c1) c2 = strike_mine (strike_mine s c2) c1.
Proof.
  apply sentence_eq_fields.
  - rewrite !strike_mine_cells. set_solver.
  - rewrite !strike_mine_count, !strike_mine_cells.
    destruct (decide (c1 = c2)) as [->|Hne]; [done|].
    destruct (decide (c1 ∈ Sentence.cells s)), (decide (c2 ∈ Sentence.cells s));
      repeat (first [rewrite decide_True by set_solver
                    |rewrite decide_False by set_solver]); lia.
Qed.

Lemma strike_safe_comm (s : Sentence.t) (c1 c2 : Cell) :
  strike_safe (strike_safe s c1) c2 = strike_safe (strike_safe s c2) c1.
Proof.
  apply sentence_eq_fields.
  - rewrite !strike_safe_cells. set_solver.
  - by rewrite !strike_safe_count.
Qed.

Lemma agent_eq_fields (x y : MinesweeperAI.t) :
  MinesweeperAI.height x = MinesweeperAI.height y →
  MinesweeperAI.width x = MinesweeperAI.width y →
  MinesweeperAI.moves_made x = MinesweeperAI.moves_made y →
  MinesweeperAI.mines x = MinesweeperAI.mines y →
  MinesweeperAI.safes x = MinesweeperAI.safes y →
  MinesweeperAI.knowledge x = MinesweeperAI.knowledge y →
  x = y.
Proof.
  destruct x, y.
  cbn [MinesweeperAI.height MinesweeperAI.width MinesweeperAI.moves_made
       MinesweeperAI.mines MinesweeperAI.safes MinesweeperAI.knowledge].
  by intros -> -> -> -> -> ->.
Qed.

Lemma agent_strike_mine_comm (ai : MinesweeperAI.t) (c1 c2 : Cell) :
  agent_strike_mine (agent_strike_mine ai c1) c2 =
  agent_strike_mine (agent_strike_mine ai c2) c1.
Proof.
  apply agent_eq_fields; simpl; try done.
  - set_solver.
  - rewrite <- !list_fmap_compose. apply list_fmap_ext. intros i s _. simpl.
    apply strike_mine_comm.
Qed.

Lemma agent_strike_safe_comm (ai : MinesweeperAI.t) (c1 c2 : Cell) :
  agent_strike_safe (agent_strike_safe ai c1) c2 =
  agent_strike_safe (agent_strike_safe ai c2) c1.
Proof.
  apply agent_eq_fields; simpl; try done.
  - set_solver.
  - rewrite <- !list_fmap_compose. apply list_fmap_ext. intros i s _. simpl.
    apply strike_safe_comm.
Qed.

Lemma foldl_comm_permutation {A B} (f : A → B → A) :
  (∀ a x y, f (f a x) y = f (f a y) x) →
  ∀ l l', l ≡ₚ l' → ∀ a, foldl f a l = foldl f a l'.
Proof.
  intros Hcomm l l' Hperm.
  induction Hperm as [|x l l' _ IH|x y l|l l' l'' _ IH1 _ IH2]; intros a; simpl.
  - done.
  - apply IH.
  - by rewrite Hcomm.
  - by rewrite IH1, IH2.
Qed.

(** The loops [for mine in mines: self.mark_mine(mine)] and
    [for safe in safes: self.mark_safe(safe)] leave the same agent in
    whatever order they visit the cells: the outcome of a pass does not
    depend on the order in which a set is iterated. *)
Theorem marking_order_irrelevant (ai : MinesweeperAI.t) (l l' : list Cell) :
  l ≡ₚ l' →
  for_each MinesweeperAI.mark_mine ai l = for_each MinesweeperAI.mark_mine ai l' ∧
  for_each MinesweeperAI.mark_safe ai l = for_each MinesweeperAI.mark_safe ai l'.
Proof.
  intros Hperm. split.
  - rewrite !(for_each_Returned _ agent_strike_mine) by apply mark_mine_eq.
    f_equal. apply foldl_comm_permutation; [|done].
    intros a x y. apply agent_strike_mine_comm.
  - rewrite !(for_each_Returned _ agent_strike_safe) by apply mark_safe_eq.
    f_equal. apply foldl_comm_permutation; [|done].
    intros a x y. apply agent_strike_safe_comm.
Qed.

Lemma marking_order_irrelevant_witness :
  [((0,0) : Cell); (0,1)] ≡ₚ [(0,1); (0,0)] ∧
  for_each MinesweeperAI.mark_mine agent_after_two [(0,0); (0,1)] =
    for_each MinesweeperAI.mark_mine agent_after_two [(0,1); (0,0)] ∧
  for_each MinesweeperAI.mark_safe agent_after_two [(0,0); (0,1)] =
    for_each MinesweeperAI.mark_safe agent_after_two [(0,1); (0,0)].
Proof.
  assert ([((0,0) : Cell); (0,1)] ≡ₚ [(0,1); (0,0)]) as Hperm by apply perm_swap.
  split; [exact Hperm|].
  exact (marking_order_irrelevant agent_after_two _ _ Hperm).
Defined.

(** Marking a cell a second time changes nothing: [mark_mine] twice on the
    same cell leaves the agent [mark_mine] once leaves (the count of a
    sentence is lowered once, not twice), and so for [mark_safe]. *)
Theorem marking_idempotent (ai : MinesweeperAI.t) (c : Cell) :
  (ai' ← MinesweeperAI.mark_mine ai c; MinesweeperAI.mark_mine ai' c) =
    MinesweeperAI.mark_mine ai c ∧
  (ai' ← MinesweeperAI.mark_safe ai c; MinesweeperAI.mark_safe ai' c) =
    MinesweeperAI.mark_safe ai c.
Proof.
  split.
  - rewrite (mark_mine_eq ai c). simpl. rewrite mark_mine_eq. f_equal.
    apply agent_eq_fields; simpl; try done; [set_solver|].
    rewrite <- list_fmap_compose. apply list_fmap_ext. intros i s _. simpl.
    apply sentence_eq_fields.
    + rewrite !strike_mine_cells. set_solver.
    + rewrite (strike_mine_count (strike_mine s c)), strike_mine_cells.
      by rewrite decide_False by set_solver.
  - rewrite (mark_safe_eq ai c). simpl. rewrite mark_safe_eq. f_equal.
    apply agent_eq_fields; simpl; try done; [set_solver|].
    rewrite <- list_fmap_compose. apply list_fmap_ext. intros i s _. simpl.
    apply sentence_eq_fields.
    + rewrite !strike_safe_cells. set_solver.
    + by rewrite !strike_safe_count.
Qed.

(** ** What a pass and an observation change *)

Lemma settle_mentions (ai0 ai : MinesweeperAI.t) (s : Sentence.t) :
  let mentioned c := ∃ s0, s0 ∈ MinesweeperAI.knowledge ai0 ∧ c ∈ Sentence.cells s0 in
  let within ai' :=
    (∀ c, c ∈ MinesweeperAI.safes ai' → c ∈ MinesweeperAI.safes ai0 ∨ mentioned c) ∧
    (∀ c, c ∈ MinesweeperAI.mines ai' → c ∈ MinesweeperAI.mines ai0 ∨ mentioned c) ∧
    (∀ s' c, s' ∈ MinesweeperAI.knowledge ai' → c ∈ Sentence.cells s' → mentioned c) in
  s ∈ MinesweeperAI.knowledge ai → within ai → within (settle ai s).
Proof.
  intros mentioned within Hs (Hsafes & Hmines & Hkb).
  destruct (settle_fields ai s) as (Em & Es & _).
  pose proof (known_mines_subseteq s) as Hkm.
  pose proof (known_safes_subseteq s) as Hks.
  unfold within. rewrite Em, Es. split_and!.
  - intros c [Hc|Hc]%elem_of_union; [|by apply Hsafes].
    right. apply (Hkb s c Hs). by apply Hks.
  - intros c [Hc|Hc]%elem_of_union; [|by apply Hmines].
    right. apply (Hkb s c Hs). by apply Hkm.
  - intros s' c Hs' Hc. apply settle_cells in Hs' as (s0 & Hs0 & Hcells).
    apply (Hkb s0 c Hs0). rewrite Hcells in Hc. set_solver.
Qed.

Lemma apply_inference_new_cells (ai : MinesweeperAI.t) :
  ensures (MinesweeperAI.apply_inference ai) (λ ai',
    ∀ c, c ∈ MinesweeperAI.safes ai' ∪ MinesweeperAI.mines ai' →
      c ∈ MinesweeperAI.safes ai ∪ MinesweeperAI.mines ai ∨
      ∃ s, s ∈ MinesweeperAI.knowledge ai ∧ c ∈ Sentence.cells s).
Proof.
  set (mentioned c := ∃ s0, s0 ∈ MinesweeperAI.knowledge ai ∧ c ∈ Sentence.cells s0).
  set (within ai' :=
    (∀ c, c ∈ MinesweeperAI.safes ai' → c ∈ MinesweeperAI.safes ai ∨ mentioned c) ∧
    (∀ c, c ∈ MinesweeperAI.mines ai' → c ∈ MinesweeperAI.mines ai ∨ mentioned c) ∧
    (∀ s' c, s' ∈ MinesweeperAI.knowledge ai' → c ∈ Sentence.cells s' → mentioned c)).
  apply (apply_inference_ensures within).
  - apply mark_known_rounds. intros ai' s. apply (settle_mentions ai).
  - intros ai1 (Hs & Hm & _) c [Hc|Hc]%elem_of_union.
    + destruct (Hs c Hc); [left; set_solver|by right].
    + destruct (Hm c Hc); [left; set_solver|by right].
  - split_and!; [by left|by left|]. intros s' c Hs' Hc. by exists s'.
Qed.

Lemma apply_inference_effect_aux (ai : MinesweeperAI.t) :
  ensures (MinesweeperAI.apply_inference ai) (λ ai',
    MinesweeperAI.moves_made ai' = MinesweeperAI.moves_made ai ∧
    MinesweeperAI.height ai' = MinesweeperAI.height ai ∧
    MinesweeperAI.width ai' = MinesweeperAI.width ai ∧
    MinesweeperAI.safes ai ⊆ MinesweeperAI.safes ai' ∧
    MinesweeperAI.mines ai ⊆ MinesweeperAI.mines ai' ∧
    (∀ c, c ∈ MinesweeperAI.safes ai' ∪ MinesweeperAI.mines ai' →
       c ∈ MinesweeperAI.safes ai ∪ MinesweeperAI.mines ai ∨
       ∃ s, s ∈ MinesweeperAI.knowledge ai ∧ c ∈ Sentence.cells s)).
Proof.
  pose proof (ensures_and _ _ _ (apply_inference_grows ai)
                (apply_inference_new_cells ai)) as H.
  eapply ensures_mono; [exact H|]. intros ai' ((?&?&?&?&?) & ?). done.
Qed.

(** [apply_inference] returns for every agent.  It leaves [moves_made]
    and the grid as they were; [safes] and [mines] only grow, and only by
    cells that a sentence of [knowledge] mentioned when the pass began. *)
Theorem apply_inference_effect (ai : MinesweeperAI.t) :
  ensures (MinesweeperAI.apply_inference ai) (λ ai',
    MinesweeperAI.moves_made ai' = MinesweeperAI.moves_made ai ∧
    MinesweeperAI.height ai' = MinesweeperAI.height ai ∧
    MinesweeperAI.width ai' = MinesweeperAI.width ai ∧
    MinesweeperAI.safes ai ⊆ MinesweeperAI.safes ai' ∧
    MinesweeperAI.mines ai ⊆ MinesweeperAI.mines ai' ∧
    (∀ c, c ∈ MinesweeperAI.safes ai' ∪ MinesweeperAI.mines ai' →
       c ∈ MinesweeperAI.safes ai ∪ MinesweeperAI.mines ai ∨
       ∃ s, s ∈ MinesweeperAI.knowledge ai ∧ c ∈ Sentence.cells s)).
Proof.
  pose proof (apply_inference_grows ai) as Hgrow.
  pose proof (apply_inference_new_cells ai) as Hnew.
  destruct (MinesweeperAI.apply_inference ai) as [ai'|e]; [|done].
  cbn [ensures] in *. destruct Hgrow as (Hs & Hm & Hmoves & Hh & Hw).
  split_and!; done.
Qed.

Lemma recorded_fields (ai : MinesweeperAI.t) (cell : Cell) (count : Z) :
  MinesweeperAI.moves_made (recorded ai cell count) =
    {[cell]} ∪ MinesweeperAI.moves_made ai ∧
  MinesweeperAI.safes (recorded ai cell count) = {[cell]} ∪ MinesweeperAI.safes ai ∧
  MinesweeperAI.mines (recorded ai cell count) = MinesweeperAI.mines ai ∧
  MinesweeperAI.height (recorded ai cell count) = MinesweeperAI.height ai ∧
  MinesweeperAI.width (recorded ai cell count) = MinesweeperAI.width ai ∧
  ∃ ai1,
    MinesweeperAI.safes ai1 = {[cell]} ∪ MinesweeperAI.safes ai ∧
    MinesweeperAI.mines ai1 = MinesweeperAI.mines ai ∧
    MinesweeperAI.height ai1 = MinesweeperAI.height ai ∧
    MinesweeperAI.width ai1 = MinesweeperAI.width ai ∧
    MinesweeperAI.knowledge (recorded ai cell count) =
      ((λ s, strike_safe s cell) <$> MinesweeperAI.knowledge ai) ++
      [Sentence.__init__ (MinesweeperAI.neighbors ai1 cell) count].
Proof.
  unfold recorded. split_and!; try reflexivity.
  exists (agent_strike_safe
            (MinesweeperAI.set_moves_made
               ({[cell]} ∪ MinesweeperAI.moves_made ai) ai) cell).
  split_and!; reflexivity.
Qed.

(** [add_knowledge] returns for every cell and count.  The cell has joined
    [moves_made] (nothing else has) and is in [safes]; the grid is as it
    was; [safes] and [mines] only grow, and a cell that has joined either
    is the observed cell, a cell some sentence of [knowledge] mentioned, or
    one of the cells around the observed cell inside the grid. *)
Theorem add_knowledge_effect (ai : MinesweeperAI.t) (cell : Cell) (count : Z) :
  ensures (MinesweeperAI.add_knowledge ai cell count) (λ ai',
    MinesweeperAI.moves_made ai' = {[cell]} ∪ MinesweeperAI.moves_made ai ∧
    MinesweeperAI.height ai' = MinesweeperAI.height ai ∧
    MinesweeperAI.width ai' = MinesweeperAI.width ai ∧
    cell ∈ MinesweeperAI.safes ai' ∧
    MinesweeperAI.safes ai ⊆ MinesweeperAI.safes ai' ∧
    MinesweeperAI.mines ai ⊆ MinesweeperAI.mines ai' ∧
    (∀ c, c ∈ MinesweeperAI.safes ai' ∪ MinesweeperAI.mines ai' →
       c = cell ∨
       c ∈ MinesweeperAI.safes ai ∪ MinesweeperAI.mines ai ∨
       (∃ s, s ∈ MinesweeperAI.knowledge ai ∧ c ∈ Sentence.cells s) ∨
       (c ≠ cell ∧ in_bounds ai c ∧
        (cell.1 - 1 ≤ c.1 ≤ cell.1 + 1) ∧ (cell.2 - 1 ≤ c.2 ≤ cell.2 + 1)))).
Proof.
  rewrite add_knowledge_eq.
  eapply ensures_mono; [apply apply_inference_effect_aux|].
  intros ai' (Hmoves & Hh & Hw & Hs & Hm & Hnew).
  destruct (recorded_fields ai cell count)
    as (Emoves & Esafes & Emines & Eh & Ew & ai1 & Es1 & Em1 & Eh1 & Ew1 & Ekb).
  rewrite Emoves in Hmoves. rewrite Eh in Hh. rewrite Ew in Hw.
  rewrite Esafes in Hs. rewrite Emines in Hm.
  split_and!; [done|done|done| | | |].
  - apply Hs. apply elem_of_union_l. by apply elem_of_singleton.
  - intros x Hx. apply Hs. by apply elem_of_union_r.
  - done.
  - intros c Hc. destruct (Hnew c Hc) as [Hold|(s & Hs' & Hcs)].
    + rewrite Esafes, Emines in Hold.
      apply elem_of_union in Hold as [[Hc1|Hc1]%elem_of_union|Hc1].
      * left. by apply elem_of_singleton in Hc1.
      * right. left. by apply elem_of_union_l.
      * right. left. by apply elem_of_union_r.
    + rewrite Ekb in Hs'.
      apply elem_of_app in Hs' as [(s0 & -> & Hs0)%list_elem_of_fmap|Hs'].
      * right. right. left. exists s0. split; [done|].
        rewrite strike_safe_cells in Hcs.
        by apply elem_of_difference in Hcs as [Hcs _].
      * apply list_elem_of_singleton in Hs'. subst s.
        unfold Sentence.__init__ in Hcs. cbn [Sentence.cells] in Hcs.
        apply elem_of_neighbors in Hcs as (H1 & H2 & (Hne & Hi & Hj) & _).
        right. right. right. unfold in_bounds.
        rewrite Eh1 in Hi. rewrite Ew1 in Hj. done.
Qed.

(** The knowledge a pass leaves is the sentences it kept followed by the
    sentences it inferred.  A kept sentence has at least one cell and is
    what is left of a sentence that was there (fewer cells, a count no
    higher); there are no more kept sentences than there were sentences.
    An inferred sentence is not among the kept ones and is the difference
    of two kept sentences that are not equal, the cells of one inside the
    cells of the other. *)
Theorem apply_inference_knowledge (ai : MinesweeperAI.t) :
  ensures (MinesweeperAI.apply_inference ai) (λ ai',
    ∃ kept inferred,
      MinesweeperAI.knowledge ai' = kept ++ inferred ∧
      (length kept ≤ length (MinesweeperAI.knowledge ai))%nat ∧
      (∀ s, s ∈ kept →
         Sentence.cells s ≠ ∅ ∧
         ∃ s0, s0 ∈ MinesweeperAI.knowledge ai ∧
           Sentence.cells s ⊆ Sentence.cells s0 ∧
           Sentence.count s ≤ Sentence.count s0) ∧
      (∀ s, s ∈ inferred →
         (s ∉ kept) ∧
         ∃ s1 s2, s1 ∈ kept ∧ s2 ∈ kept ∧ s1 ≠ s2 ∧
           Sentence.cells s1 ⊆ Sentence.cells s2 ∧
           Sentence.cells s = Sentence.cells s2 ∖ Sentence.cells s1 ∧
           Sentence.count s = Sentence.count s2 - Sentence.count s1)).
Proof.
  set (P := λ ai' : MinesweeperAI.t,
    length (MinesweeperAI.knowledge ai') = length (MinesweeperAI.knowledge ai) ∧
    ∀ s, s ∈ MinesweeperAI.knowledge ai' →
      ∃ s0, s0 ∈ MinesweeperAI.knowledge ai ∧
        Sentence.cells s ⊆ Sentence.cells s0 ∧
        Sentence.count s ≤ Sentence.count s0).
  apply (apply_inference_ensures P).
  - apply mark_known_keeps.
    + intros ai' c [Hlen Hkb]. split.
      * by rewrite agent_strike_mine_length.
      * intros s (s1 & -> & Hs1)%list_elem_of_fmap.
        destruct (Hkb s1 Hs1) as (s0 & Hs0 & Hsub & Hle). exists s0.
        rewrite strike_mine_cells, strike_mine_count.
        split_and!; [done|set_solver|case_decide; lia].
    + intros ai' c [Hlen Hkb]. split.
      * by rewrite agent_strike_safe_length.
      * intros s (s1 & -> & Hs1)%list_elem_of_fmap.
        destruct (Hkb s1 Hs1) as (s0 & Hs0 & Hsub & Hle). exists s0.
        rewrite strike_safe_cells, strike_safe_count.
        split_and!; [done|set_solver|lia].
  - intros ai1 [Hlen Hkb].
    exists (pruned (MinesweeperAI.knowledge ai1)),
           (MinesweeperAI.infer_pairs (pruned (MinesweeperAI.knowledge ai1))).
    split_and!.
    + done.
    + rewrite <- Hlen. apply length_filter.
    + intros s [Hsz Hs]%list_elem_of_filter. split; [|by apply Hkb].
      intros Hempty. rewrite Hempty, size_empty in Hsz. lia.
    + intros s (s1 & s2 & Hs1 & Hs2 & Hne & Hsub & -> & Hnew)%elem_of_infer_pairs.
      split; [done|]. exists s1, s2. done.
  - split; [done|]. intros s Hs. exists s. split_and!; [done|done|lia].
Qed.

Lemma size_list_to_set_le (l : list Cell) :
  (size (list_to_set l : gset Cell) ≤ length l)%nat.
Proof.
  induction l as [|x l IH].
  - rewrite list_to_set_nil, size_empty. done.
  - rewrite list_to_set_cons, size_union_alt, size_singleton. simpl.
    assert (size (list_to_set l ∖ {[x]} : gset Cell) ≤ size (list_to_set l : gset Cell))%nat
      by (apply subseteq_size; set_solver).
    lia.
Qed.

(** The cells [add_knowledge] puts in its new sentence are the cells next
    to the observed cell (at most one row and one column away, the cell
    itself left out) that lie inside the grid and are in neither [safes]
    nor [mines]; there are at most 8 of them. *)
Theorem neighbors_spec (ai : MinesweeperAI.t) (cell : Cell) :
  (∀ x, x ∈ MinesweeperAI.neighbors ai cell ↔
     x ≠ cell ∧
     (cell.1 - 1 ≤ x.1 ≤ cell.1 + 1) ∧ (cell.2 - 1 ≤ x.2 ≤ cell.2 + 1) ∧
     in_bounds ai x ∧
     (x ∉ MinesweeperAI.safes ai) ∧ (x ∉ MinesweeperAI.mines ai)) ∧
  (size (MinesweeperAI.neighbors ai cell) ≤ 8)%nat.
Proof.
  split.
  - intros x. rewrite elem_of_neighbors. unfold collected, in_bounds. tauto.
  - destruct cell as [r k].
    set (box := [(r-1, k-1); (r-1, k); (r-1, k+1); (r, k-1); (r, k+1);
                 (r+1, k-1); (r+1, k); (r+1, k+1)] : list Cell).
    transitivity (size (list_to_set box : gset Cell));
      [|apply (size_list_to_set_le box)].
    apply subseteq_size. intros [i j] Hx.
    apply elem_of_neighbors in Hx as (Hi & Hj & (Hne & _) & _).
    cbn [fst snd] in Hi, Hj. apply elem_of_list_to_set. unfold box.
    assert (i = r - 1 ∨ i = r ∨ i = r + 1) as Hi' by lia.
    assert (j = k - 1 ∨ j = k ∨ j = k + 1) as Hj' by lia.
    destruct Hi' as [-> | [-> | ->]], Hj' as [-> | [-> | ->]];
      try done; set_solver.
Qed.

(** [make_random_move] returns for every agent and every draw.  A cell it
    returns lies inside the grid and is in neither [moves_made] nor
    [mines]; it returns [None] exactly when every cell of the grid is in
    [moves_made] or in [mines]. *)
Theorem make_random_move_spec (ai : MinesweeperAI.t) (draw : nat) :
  ensures (MinesweeperAI.make_random_move draw ai) (λ r,
    (∀ c, r.1 = Some c →
       in_bounds ai c ∧
       (c ∉ MinesweeperAI.moves_made ai) ∧ (c ∉ MinesweeperAI.mines ai)) ∧
    (r.1 = None ↔
       ∀ c, in_bounds ai c →
         c ∈ MinesweeperAI.moves_made ai ∨ c ∈ MinesweeperAI.mines ai)).
Proof.
  unfold MinesweeperAI.make_random_move.
  match goal with |- context [random_choice draw ?l] => set (available := l) end.
  assert (∀ c, c ∈ available ↔
            in_bounds ai c ∧
            (c ∉ MinesweeperAI.moves_made ai) ∧ (c ∉ MinesweeperAI.mines ai)) as Hav.
  { intros [i j]. unfold available, in_bounds. cbn [fst snd].
    rewrite list_elem_of_bind. split.
    - intros (i' & Hc & Hi'%elem_of_range).
      apply list_elem_of_bind in Hc as (j' & Hc & Hj'%elem_of_range).
      destruct (decide (((i', j') ∉ MinesweeperAI.moves_made ai) ∧
                        ((i', j') ∉ MinesweeperAI.mines ai))) as [Hfree|Hnot].
      + apply list_elem_of_singleton in Hc. injection Hc as -> ->.
        split; [lia|done].
      + by apply elem_of_nil in Hc.
    - intros (Hin & Hfree). exists i. rewrite elem_of_range. split; [|lia].
      apply list_elem_of_bind. exists j. rewrite elem_of_range. split; [|lia].
      rewrite decide_True by done. by apply list_elem_of_singleton. }
  destruct available as [|x l] eqn:Heq.
  - simpl. split; [done|]. split; [|done]. intros _ c Hc.
    destruct (decide (c ∈ MinesweeperAI.moves_made ai)) as [?|Hm]; [by left|].
    destruct (decide (c ∈ MinesweeperAI.mines ai)) as [?|Hn]; [by right|].
    exfalso. eapply elem_of_nil. apply Hav. done.
  - destruct (random_choice_returns draw x l) as (y & -> & Hy). simpl.
    split.
    + intros c [= <-]. by apply Hav.
    + split; [done|]. intros Hall. exfalso.
      assert (x ∈ x :: l) as Hx by (by left).
      apply Hav in Hx as (Hin & Hm & Hn). destruct (Hall x Hin); done.
Qed.

(** ** Soundness of the engine *)

Section Soundness.
Variable board_mines : gset Cell.

Lemma true_on_bounds (s : Sentence.t) :
  true_on board_mines s →
  0 ≤ Sentence.count s ≤ Z.of_nat (size (Sentence.cells s)).
Proof.
  unfold true_on. intros ->.
  assert (size (Sentence.cells s ∩ board_mines) ≤ size (Sentence.cells s))%nat
    by (apply subseteq_size; set_solver).
  lia.
Qed.

Lemma known_mines_true (s : Sentence.t) :
  true_on board_mines s → (Sentence.known_mines s).1 ⊆ board_mines.
Proof.
  unfold true_on, Sentence.known_mines. intros Htrue.
  case_decide as Hsz; cbn [fst]; [|set_solver].
  assert (Sentence.cells s ∩ board_mines = Sentence.cells s) as Heq.
  { apply set_subseteq_size_eq; [set_solver|lia]. }
  set_solver.
Qed.

Lemma known_safes_true (s : Sentence.t) :
  true_on board_mines s → (Sentence.known_safes s).1 ∩ board_mines = ∅.
Proof.
  unfold true_on, Sentence.known_safes. intros Htrue.
  case_decide as Hz; cbn [fst]; [|set_solver].
  apply leibniz_equiv, size_empty_inv. lia.
Qed.

Lemma strike_mine_true (s : Sentence.t) (c : Cell) :
  c ∈ board_mines → true_on board_mines s → true_on board_mines (strike_mine s c).
Proof.
  unfold true_on. intros Hc Htrue.
  rewrite strike_mine_count, strike_mine_cells.
  destruct (decide (c ∈ Sentence.cells s)) as [Hin|Hnin].
  - replace ((Sentence.cells s ∖ {[c]}) ∩ board_mines)
      with ((Sentence.cells s ∩ board_mines) ∖ {[c]}) by set_solver.
    rewrite size_difference by set_solver. rewrite size_singleton.
    assert (size (Sentence.cells s ∩ board_mines) ≠ 0%nat); [|lia].
    intros Hz%size_empty_inv. set_solver.
  - replace ((Sentence.cells s ∖ {[c]}) ∩ board_mines)
      with (Sentence.cells s ∩ board_mines) by set_solver.
    done.
Qed.

Lemma strike_safe_true (s : Sentence.t) (c : Cell) :
  c ∉ board_mines → true_on board_mines s → true_on board_mines (strike_safe s c).
Proof.
  unfold true_on. intros Hc Htrue.
  rewrite strike_safe_count, strike_safe_cells.
  replace ((Sentence.cells s ∖ {[c]}) ∩ board_mines)
    with (Sentence.cells s ∩ board_mines) by set_solver.
  done.
Qed.

Lemma difference_true (s1 s2 : Sentence.t) :
  Sentence.cells s1 ⊆ Sentence.cells s2 →
  true_on board_mines s1 → true_on board_mines s2 →
  true_on board_mines
    (Sentence.__init__ (Sentence.cells s2 ∖ Sentence.cells s1)
                       (Sentence.count s2 - Sentence.count s1)).
Proof.
  unfold true_on, Sentence.__init__. cbn [Sentence.cells Sentence.count].
  intros Hsub -> ->.
  replace ((Sentence.cells s2 ∖ Sentence.cells s1) ∩ board_mines)
    with ((Sentence.cells s2 ∩ board_mines) ∖ (Sentence.cells s1 ∩ board_mines))
    by set_solver.
  assert (size ((Sentence.cells s2 ∩ board_mines) ∖ (Sentence.cells s1 ∩ board_mines))
          = (size (Sentence.cells s2 ∩ board_mines) -
             size (Sentence.cells s1 ∩ board_mines))%nat) as ->
    by (apply size_difference; set_solver).
  assert (size (Sentence.cells s1 ∩ board_mines) ≤
          size (Sentence.cells s2 ∩ board_mines))%nat
    by (apply subseteq_size; set_solver).
  lia.
Qed.

Lemma agent_strike_mine_sound (ai : MinesweeperAI.t) (c : Cell) :
  c ∈ board_mines → sound board_mines ai → sound board_mines (agent_strike_mine ai c).
Proof.
  intros Hc (Hs & Hm & Hkb). unfold sound. simpl. split_and!.
  - done.
  - set_solver.
  - apply Forall_fmap. eapply Forall_impl; [exact Hkb|].
    intros s Hs'. by apply strike_mine_true.
Qed.

Lemma agent_strike_safe_sound (ai : MinesweeperAI.t) (c : Cell) :
  c ∉ board_mines → sound board_mines ai → sound board_mines (agent_strike_safe ai c).
Proof.
  intros Hc (Hs & Hm & Hkb). unfold sound. simpl. split_and!.
  - set_solver.
  - done.
  - apply Forall_fmap. eapply Forall_impl; [exact Hkb|].
    intros s Hs'. by apply strike_safe_true.
Qed.

Lemma settle_sound (ai : MinesweeperAI.t) (s : Sentence.t) :
  s ∈ MinesweeperAI.knowledge ai →
  sound board_mines ai → sound board_mines (settle ai s).
Proof.
  intros Hs Hsound.
  assert (true_on board_mines s) as Htrue.
  { destruct Hsound as (_ & _ & Hkb). rewrite Forall_forall in Hkb. by apply Hkb. }
  pose proof (known_mines_true s Htrue) as Hkm.
  pose proof (known_safes_true s Htrue) as Hks.
  unfold settle.
  assert (∀ l ai', (∀ c, c ∈ l → c ∈ board_mines) → sound board_mines ai' →
            sound board_mines (foldl agent_strike_mine ai' l)) as Hfm.
  { induction l as [|c l IH]; intros ai' Hl Hai'; simpl; [done|].
    apply IH; [intros c' Hc'; apply Hl; by right|].
    apply agent_strike_mine_sound; [apply Hl; by left|done]. }
  assert (∀ l ai', (∀ c, c ∈ l → c ∉ board_mines) → sound board_mines ai' →
            sound board_mines (foldl agent_strike_safe ai' l)) as Hfs.
  { induction l as [|c l IH]; intros ai' Hl Hai'; simpl; [done|].
    apply IH; [intros c' Hc'; apply Hl; by right|].
    apply agent_strike_safe_sound; [apply Hl; by left|done]. }
  apply Hfs; [|apply Hfm; [|done]].
  - intros c Hc%elem_of_elements. set_solver.
  - intros c Hc%elem_of_elements. set_solver.
Qed.

Lemma kept_and_inferred_sound (ai1 : MinesweeperAI.t) :
  sound board_mines ai1 →
  sound board_mines
    (MinesweeperAI.set_knowledge
       (pruned (MinesweeperAI.knowledge ai1) ++
        MinesweeperAI.infer_pairs (pruned (MinesweeperAI.knowledge ai1))) ai1).
Proof.
  intros (Hs & Hm & Hkb). unfold sound. simpl. split_and!; [done|done|].
  rewrite Forall_forall in Hkb.
  assert (∀ s, s ∈ pruned (MinesweeperAI.knowledge ai1) → true_on board_mines s)
    as Hkept.
  { intros s [_ Hs']%list_elem_of_filter. by apply Hkb. }
  apply Forall_forall. intros s [Hs'|Hs']%elem_of_app; [by apply Hkept|].
  apply elem_of_infer_pairs in Hs' as (s1 & s2 & Hs1 & Hs2 & _ & Hsub & -> & _).
  apply difference_true; [done|by apply Hkept|by apply Hkept].
Qed.

Lemma apply_inference_sound_aux (ai : MinesweeperAI.t) :
  sound board_mines ai →
  ensures (MinesweeperAI.apply_inference ai) (sound board_mines).
Proof.
  apply (apply_inference_ensures (sound board_mines)).
  - apply mark_known_rounds. intros ai' s. apply settle_sound.
  - apply kept_and_inferred_sound.
Qed.

Lemma neighbors_after_mark_safe (ai : MinesweeperAI.t) (cell : Cell) :
  MinesweeperAI.neighbors
    (agent_strike_safe
       (MinesweeperAI.set_moves_made ({[cell]} ∪ MinesweeperAI.moves_made ai) ai)
       cell) cell
  = MinesweeperAI.neighbors ai cell.
Proof.
  apply set_eq. intros x. rewrite !elem_of_neighbors. unfold collected. simpl.
  set_solver.
Qed.

Lemma recorded_sound (ai : MinesweeperAI.t) (cell : Cell) (count : Z) :
  sound board_mines ai → cell ∉ board_mines →
  count = Z.of_nat (size (MinesweeperAI.neighbors ai cell ∩ board_mines)) →
  sound board_mines (recorded ai cell count).
Proof.
  intros Hsound Hcell Hcount. unfold recorded.
  rewrite neighbors_after_mark_safe.
  set (ai1 := agent_strike_safe _ cell).
  assert (sound board_mines ai1) as (Hs & Hm & Hkb).
  { apply agent_strike_safe_sound; [done|].
    destruct Hsound as (Hs & Hm & Hkb). done. }
  unfold sound. split_and!; [done|done|].
  cbn [MinesweeperAI.knowledge MinesweeperAI.set_knowledge].
  apply Forall_app. split; [done|]. apply Forall_singleton.
  unfold true_on, Sentence.__init__. cbn [Sentence.cells Sentence.count]. done.
Qed.

Lemma add_knowledge_sound_aux (ai : MinesweeperAI.t) (cell : Cell) (count : Z) :
  sound board_mines ai → cell ∉ board_mines →
  count = Z.of_nat (size (MinesweeperAI.neighbors ai cell ∩ board_mines)) →
  ensures (MinesweeperAI.add_knowledge ai cell count) (sound board_mines).
Proof.
  intros Hsound Hcell Hcount. rewrite add_knowledge_eq.
  by apply apply_inference_sound_aux, recorded_sound.
Qed.

Lemma init_sound (h w : Z) : sound board_mines (MinesweeperAI.__init__ h w).
Proof. unfold sound. simpl. split_and!; [set_solver|set_solver|constructor]. Qed.

Lemma observe_all_sound_aux (obs : list (Cell * Z)) : ∀ ai,
  sound board_mines ai → truthful board_mines ai obs = true →
  ensures (observe_all ai obs) (sound board_mines).
Proof.
  induction obs as [|[cell count] obs IH]; intros ai Hsound Htruth.
  - done.
  - cbn [truthful fst snd] in Htruth.
    apply andb_true_iff in Htruth as [[Hc%bool_decide_eq_true Hn%bool_decide_eq_true]%andb_true_iff Hrest].
    pose proof (add_knowledge_sound_aux ai cell count Hsound Hc Hn) as Hstep.
    unfold observe_all. cbn [for_each fst snd].
    destruct (MinesweeperAI.add_knowledge ai cell count) as [ai'|e]; [|done].
    cbn [ensures] in Hstep. cbn [mbind outcome_bind]. by apply IH.
Qed.

End Soundness.

(** A pass is sound: on an agent whose [safes], [mines] and sentences are
    true of a board, [apply_inference] returns an agent of which the same
    holds.  It marks no mine as safe, no cell without a mine as a mine,
    and infers no false sentence. *)
Theorem apply_inference_sound (board_mines : gset Cell) (ai : MinesweeperAI.t) :
  sound board_mines ai →
  ensures (MinesweeperAI.apply_inference ai) (sound board_mines).
Proof.
  intros Hsound.
  destruct (apply_inference_eq ai) as (ai1 & Hloop & ->). cbn [ensures].
  pose proof (mark_known_rounds (sound board_mines)
                (λ ai' s, settle_sound board_mines ai' s)
                (length (MinesweeperAI.knowledge ai)) 0 ai Hsound) as Hloop'.
  rewrite Hloop in Hloop'. cbn [ensures] in Hloop'.
  by apply kept_and_inferred_sound.
Qed.

Lemma apply_inference_sound_witness :
  sound {[ (0,0); (0,2) ]} agent_with_pair_and_triple ∧
  ensures (MinesweeperAI.apply_inference agent_with_pair_and_triple)
    (sound {[ (0,0); (0,2) ]}).
Proof.
  assert (sound {[ (0,0); (0,2) ]} agent_with_pair_and_triple) as Hsound.
  { apply (bool_decide_unpack _). vm_compute. exact I. }
  split; [exact Hsound|].
  exact (apply_inference_sound _ _ Hsound).
Defined.

(** An observation is sound when it is truthful: if what the agent holds
    is true of the board, the observed cell has no mine, and the count is
    the number of mines among the cells the new sentence is about (the
    cells around the observed cell that the agent holds in neither [safes]
    nor [mines]), then [add_knowledge] returns an agent of which
    everything is true of the board again. *)
Theorem add_knowledge_sound (board_mines : gset Cell) (ai : MinesweeperAI.t)
    (cell : Cell) (count : Z) :
  sound board_mines ai →
  cell ∉ board_mines →
  count = Z.of_nat (size (MinesweeperAI.neighbors ai cell ∩ board_mines)) →
  ensures (MinesweeperAI.add_knowledge ai cell count) (sound board_mines).
Proof.
  intros Hsound Hcell Hcount. rewrite add_knowledge_eq.
  apply apply_inference_sound_aux.
  by apply recorded_sound.
Qed.

Lemma add_knowledge_sound_witness :
  sound {[ (1,0); (0,2); (1,2) ]} (MinesweeperAI.__init__ 8 8) ∧
  ((0,0) ∉ ({[ (1,0); (0,2); (1,2) ]} : gset Cell)) ∧
  1 = Z.of_nat (size (MinesweeperAI.neighbors (MinesweeperAI.__init__ 8 8) (0,0)
                      ∩ {[ (1,0); (0,2); (1,2) ]})) ∧
  ensures (MinesweeperAI.add_knowledge (MinesweeperAI.__init__ 8 8) (0,0) 1)
    (sound {[ (1,0); (0,2); (1,2) ]}).
Proof.
  assert (sound {[ (1,0); (0,2); (1,2) ]} (MinesweeperAI.__init__ 8 8)) as Hsound.
  { apply (bool_decide_unpack _). vm_compute. exact I. }
  assert ((0,0) ∉ ({[ (1,0); (0,2); (1,2) ]} : gset Cell)) as Hcell.
  { apply (bool_decide_unpack _). vm_compute. exact I. }
  assert (1 = Z.of_nat (size (MinesweeperAI.neighbors (MinesweeperAI.__init__ 8 8) (0,0)
                              ∩ {[ (1,0); (0,2); (1,2) ]}))) as Hcount.
  { vm_compute. reflexivity. }
  split_and!; [exact Hsound | exact Hcell | exact Hcount |].
  exact (add_knowledge_sound _ _ _ _ Hsound Hcell Hcount).
Defined.

(** Truthful play is sound.  After any sequence of truthful observations
    on a new agent, every call has returned and everything the agent holds
    is true of the board; so a cell [make_safe_move] returns holds no mine,
    and every sentence of [knowledge] has [0 <= count <= len(cells)]. *)
Theorem truthful_play_sound (board_mines : gset Cell) (h w : Z)
    (obs : list (Cell * Z)) :
  truthful board_mines (MinesweeperAI.__init__ h w) obs = true →
  ensures (observe_all (MinesweeperAI.__init__ h w) obs) (λ ai,
    sound board_mines ai ∧
    (∀ c, (MinesweeperAI.make_safe_move ai).1 = Some c → c ∉ board_mines) ∧
    (∀ s, s ∈ MinesweeperAI.knowledge ai →
       0 ≤ Sentence.count s ≤ Z.of_nat (size (Sentence.cells s)))).
Proof.
  intros Htruth. eapply ensures_mono.
  - apply (observe_all_sound_aux board_mines); [apply init_sound|exact Htruth].
  - intros ai Hsound. split; [done|]. destruct Hsound as (Hs & Hm & Hkb). split.
    + intros c [Hin _]%find_some.
      apply list_elem_of_In, elem_of_elements in Hin. set_solver.
    + intros s Hs'. rewrite Forall_forall in Hkb.
      by apply (true_on_bounds board_mines), Hkb.
Qed.

Lemma truthful_play_sound_witness :
  truthful {[ (1,0); (0,2); (1,2); (2,1) ]} (MinesweeperAI.__init__ 8 8)
    [((0,0),1); ((0,1),3); ((2,0),2)] = true ∧
  ensures (observe_all (MinesweeperAI.__init__ 8 8)
             [((0,0),1); ((0,1),3); ((2,0),2)]) (λ ai,
    sound {[ (1,0); (0,2); (1,2); (2,1) ]} ai ∧
    (∀ c, (MinesweeperAI.make_safe_move ai).1 = Some c →
       c ∉ ({[ (1,0); (0,2); (1,2); (2,1) ]} : gset Cell)) ∧
    (∀ s, s ∈ MinesweeperAI.knowledge ai →
       0 ≤ Sentence.count s ≤ Z.of_nat (size (Sentence.cells s)))).
Proof.
  assert (truthful {[ (1,0); (0,2); (1,2); (2,1) ]} (MinesweeperAI.__init__ 8 8)
            [((0,0),1); ((0,1),3); ((2,0),2)] = true) as Htruth.
  { vm_compute. reflexivity. }
  split; [exact Htruth|].
  exact (truthful_play_sound _ 8 8 _ Htruth).
Defined.

(** ** The board: [is_mine] and [nearby_mines] *)

Lemma list_getitem_nonneg {A} (l : list A) (i : Z) :
  0 ≤ i →
  list_getitem l i =
    match l !! Z.to_nat i with Some x => Returned x | None => Raised IndexError end.
Proof.
  intros Hi. unfold list_getitem.
  rewrite (decide_False (P := i < 0)) by lia. rewrite decide_True by lia. done.
Qed.

Lemma list_getitem_negative {A} (l : list A) (i : Z) :
  - Z.of_nat (length l) ≤ i < 0 →
  list_getitem l i = list_getitem l (i + Z.of_nat (length l)).
Proof.
  intros Hi. unfold list_getitem.
  rewrite (decide_True (P := i < 0)) by lia.
  rewrite (decide_False (P := i + Z.of_nat (length l) < 0)) by lia. done.
Qed.

Lemma list_getitem_outside {A} (l : list A) (i : Z) :
  Z.of_nat (length l) ≤ i ∨ i < - Z.of_nat (length l) →
  list_getitem l i = Raised IndexError.
Proof.
  intros Hi. unfold list_getitem. destruct (decide (i < 0)).
  - rewrite decide_False by lia. done.
  - rewrite decide_True by lia. rewrite lookup_ge_None_2 by lia. done.
Qed.

Lemma rectangular_row (g : Minesweeper.t) (i : Z) :
  rectangular g → 0 ≤ i < Minesweeper.height g →
  ∃ row, Minesweeper.board g !! Z.to_nat i = Some row ∧
         Z.of_nat (length row) = Minesweeper.width g.
Proof.
  intros [Hrows Hcols] Hi.
  destruct (lookup_lt_is_Some_2 (Minesweeper.board g) (Z.to_nat i)) as [row Hrow];
    [lia|].
  exists row. split; [done|]. rewrite Forall_forall in Hcols.
  apply Hcols. by eapply list_elem_of_lookup_2.
Qed.

Lemma rectangular_entry (g : Minesweeper.t) (i j : Z) :
  rectangular g →
  0 ≤ i < Minesweeper.height g → 0 ≤ j < Minesweeper.width g →
  ∃ row b, Minesweeper.board g !! Z.to_nat i = Some row ∧
           row !! Z.to_nat j = Some b ∧
           (b = true ↔ mine_at g (i, j)).
Proof.
  intros Hrect Hi Hj. destruct (rectangular_row g i Hrect Hi) as (row & Hrow & Hlen).
  destruct (lookup_lt_is_Some_2 row (Z.to_nat j)) as [b Hb]; [lia|].
  exists row, b. split_and!; [done|done|].
  unfold mine_at. cbn [fst snd]. rewrite Hrow. cbn [mbind option_bind]. rewrite Hb.
  split.
  - intros ->. done.
  - intros (_ & _ & [= ->]). done.
Qed.

Lemma elem_of_window (cell c : Cell) :
  c ∈ window cell ↔
  (cell.1 - 1 ≤ c.1 ≤ cell.1 + 1) ∧ (cell.2 - 1 ≤ c.2 ≤ cell.2 + 1).
Proof.
  unfold window. rewrite list_elem_of_bind. split.
  - intros (i & Hc & Hi%elem_of_range).
    apply list_elem_of_bind in Hc as (j & Hc & Hj%elem_of_range).
    apply list_elem_of_singleton in Hc as ->. cbn [fst snd]. lia.
  - intros [Hi Hj]. exists c.1. rewrite elem_of_range. split; [|lia].
    apply list_elem_of_bind. exists c.2. rewrite elem_of_range. split; [|lia].
    apply list_elem_of_singleton. by destruct c.
Qed.

Lemma NoDup_window (cell : Cell) : NoDup (window cell).
Proof.
  unfold window, range. apply NoDup_bind.
  - intros i1 i2 c _ _ (j1 & Hc1 & _)%list_elem_of_bind (j2 & Hc2 & _)%list_elem_of_bind.
    apply list_elem_of_singleton in Hc1, Hc2. congruence.
  - intros i _. apply NoDup_bind.
    + intros j1 j2 c _ _ Hc1%list_elem_of_singleton Hc2%list_elem_of_singleton.
      congruence.
    + intros j _. apply NoDup_singleton.
    + apply NoDup_seqZ.
  - apply NoDup_seqZ.
Qed.

Lemma length_window (cell : Cell) : length (window cell) = 9%nat.
Proof.
  unfold window.
  assert (∀ (rows cols : list Z),
    length (rows ≫= λ i, cols ≫= λ j, [(i, j)]) = (length rows * length cols)%nat)
    as Hlen.
  { intros rows cols. induction rows as [|i rows IH]; [done|].
    rewrite bind_cons, length_app, IH.
    assert (length (cols ≫= λ j, [(i, j)]) = length cols) as ->.
    { clear. induction cols as [|j cols IH]; [done|].
      rewrite bind_cons, length_app, IH. done. }
    done. }
  rewrite Hlen. unfold range. rewrite !length_seqZ.
  replace (cell.1 + 2 - (cell.1 - 1)) with 3 by lia.
  replace (cell.2 + 2 - (cell.2 - 1)) with 3 by lia. done.
Qed.

Section NearbyMines.
Variables (g : Minesweeper.t) (cell : Cell).
Hypothesis Hrect : rectangular g.

(** One round of the inner loop. *)
Lemma nearby_step (count i j : Z) :
  (if decide ((i, j) = cell) then mret count
   else if decide ((0 ≤ i < Minesweeper.height g) ∧ (0 ≤ j < Minesweeper.width g)) then
     row ← list_getitem (Minesweeper.board g) i;
     is_mine ← list_getitem row j;
     if is_mine : bool then mret (count + 1) else mret count
   else mret count)
  = Returned (count +
      Z.of_nat (length (filter (λ c, c ≠ cell ∧ mine_at g c) [(i, j)]))).
Proof.
  destruct (decide ((i, j) = cell)) as [Heq|Hne].
  - rewrite filter_cons_False by tauto. rewrite filter_nil. simpl. f_equal. lia.
  - destruct (decide ((0 ≤ i < Minesweeper.height g) ∧
                      (0 ≤ j < Minesweeper.width g))) as [[Hi Hj]|Hout].
    + destruct (rectangular_entry g i j Hrect Hi Hj) as (row & b & Hrow & Hb & Hmine).
      rewrite list_getitem_nonneg by lia. rewrite Hrow. cbn [mbind outcome_bind].
      rewrite list_getitem_nonneg by lia. rewrite Hb. cbn [mbind outcome_bind].
      destruct b.
      * rewrite filter_cons_True by (split; [done|by apply Hmine]).
        rewrite filter_nil. simpl. done.
      * rewrite filter_cons_False; [rewrite filter_nil; simpl; f_equal; lia|].
        intros [_ Hm]. apply Hmine in Hm. done.
    + rewrite filter_cons_False; [rewrite filter_nil; simpl; f_equal; lia|].
      intros [_ (Hi & Hj & _)]. cbn [fst snd] in *. tauto.
Qed.

Lemma nearby_inner (i : Z) (js : list Z) (count : Z) :
  for_each (λ count j,
    if decide ((i, j) = cell) then mret count
    else if decide ((0 ≤ i < Minesweeper.height g) ∧ (0 ≤ j < Minesweeper.width g)) then
      row ← list_getitem (Minesweeper.board g) i;
      is_mine ← list_getitem row j;
      if is_mine : bool then mret (count + 1) else mret count
    else mret count) count js
  = Returned (count +
      Z.of_nat (length (filter (λ c, c ≠ cell ∧ mine_at g c)
                          (js ≫= λ j, [(i, j)])))).
Proof.
  revert count. induction js as [|j js IH]; intros count.
  - simpl. f_equal. lia.
  - cbn [for_each]. rewrite nearby_step. cbn [mbind outcome_bind]. rewrite IH.
    f_equal. rewrite bind_cons, filter_app, length_app, Nat2Z.inj_add, Z.add_assoc.
    reflexivity.
Qed.

Lemma nearby_outer (rows cols : list Z) (count : Z) :
  for_each (λ count i,
    for_each (λ count j,
      if decide ((i, j) = cell) then mret count
      else if decide ((0 ≤ i < Minesweeper.height g) ∧ (0 ≤ j < Minesweeper.width g)) then
        row ← list_getitem (Minesweeper.board g) i;
        is_mine ← list_getitem row j;
        if is_mine : bool then mret (count + 1) else mret count
      else mret count) count cols) count rows
  = Returned (count +
      Z.of_nat (length (filter (λ c, c ≠ cell ∧ mine_at g c)
                          (rows ≫= λ i, cols ≫= λ j, [(i, j)])))).
Proof.
  revert count. induction rows as [|i rows IH]; intros count.
  - simpl. f_equal. lia.
  - cbn [for_each]. rewrite nearby_inner. cbn [mbind outcome_bind]. rewrite IH.
    f_equal. rewrite bind_cons, filter_app, length_app, Nat2Z.inj_add, Z.add_assoc.
    reflexivity.
Qed.

Lemma nearby_mines_eq :
  Minesweeper.nearby_mines g cell =
  Returned (Z.of_nat (length (filter (λ c, c ≠ cell ∧ mine_at g c) (window cell)))).
Proof.
  unfold Minesweeper.nearby_mines. rewrite nearby_outer. unfold window. f_equal.
Qed.

End NearbyMines.

Lemma elem_of_mines_on_board (g : Minesweeper.t) (c : Cell) :
  c ∈ mines_on_board g ↔ mine_at g c.
Proof.
  unfold mines_on_board. rewrite elem_of_list_to_set, list_elem_of_filter.
  split; [tauto|]. intros Hm. split; [done|].
  destruct Hm as (Hi & Hj & _).
  apply list_elem_of_bind. exists c.1. rewrite elem_of_range. split; [|lia].
  apply list_elem_of_bind. exists c.2. rewrite elem_of_range. split; [|lia].
  apply list_elem_of_singleton. by destruct c.
Qed.

(** [nearby_mines] on a board of [height] rows and [width] columns returns
    for every cell, inside the grid or not: the number of cells of the
    three by three window around the cell, the cell itself left out, that
    lie inside the grid and hold a mine.  The result is between 0 and 8. *)
Theorem nearby_mines_spec (g : Minesweeper.t) (cell : Cell) :
  rectangular g →
  ensures (Minesweeper.nearby_mines g cell) (λ n,
    n = Z.of_nat (length (filter (λ c, c ≠ cell ∧ mine_at g c) (window cell))) ∧
    0 ≤ n ≤ 8).
Proof.
  intros Hrect. rewrite nearby_mines_eq by done. cbn [ensures]. split; [done|].
  assert (length (filter (λ c, c ≠ cell ∧ mine_at g c) (window cell)) < 9)%nat;
    [|lia].
  rewrite <- (length_window cell). apply (length_filter_lt _ _ cell).
  - apply elem_of_window. lia.
  - tauto.
Qed.

Lemma nearby_mines_spec_witness :
  rectangular small_board ∧
  ensures (Minesweeper.nearby_mines small_board (1,1)) (λ n,
    n = Z.of_nat (length (filter (λ c, c ≠ (1,1) ∧ mine_at small_board c)
                            (window (1,1)))) ∧
    0 ≤ n ≤ 8).
Proof.
  assert (rectangular small_board) as Hrect.
  { apply (bool_decide_unpack _). vm_compute. exact I. }
  split; [exact Hrect|].
  exact (nearby_mines_spec small_board (1,1) Hrect).
Defined.

(** [is_mine] on a board of [height] rows and [width] columns, for a
    column inside the grid: a row inside the grid gives whether the cell
    holds a mine; a negative row down to [-height] is counted from the last
    row, as Python indexes a list; any other row raises IndexError. *)
Theorem is_mine_spec (g : Minesweeper.t) (i j : Z) :
  rectangular g → 0 ≤ j < Minesweeper.width g →
  (0 ≤ i < Minesweeper.height g →
     ∃ b, Minesweeper.is_mine g (i, j) = Returned b ∧ (b = true ↔ mine_at g (i, j))) ∧
  (- Minesweeper.height g ≤ i < 0 →
     Minesweeper.is_mine g (i, j) =
     Minesweeper.is_mine g (i + Minesweeper.height g, j)) ∧
  (Minesweeper.height g ≤ i ∨ i < - Minesweeper.height g →
     Minesweeper.is_mine g (i, j) = Raised IndexError).
Proof.
  intros Hrect Hj. pose proof Hrect as [Hrows _]. unfold Minesweeper.is_mine.
  split_and!.
  - intros Hi.
    destruct (rectangular_entry g i j Hrect Hi Hj) as (row & b & Hrow & Hb & Hmine).
    exists b. split; [|done].
    rewrite list_getitem_nonneg by lia. rewrite Hrow. cbn [mbind outcome_bind].
    rewrite list_getitem_nonneg by lia. by rewrite Hb.
  - intros Hi. rewrite (list_getitem_negative (Minesweeper.board g) i) by lia.
    by rewrite Hrows.
  - intros Hi. rewrite list_getitem_outside by lia. done.
Qed.

Lemma is_mine_spec_witness :
  rectangular small_board ∧ 0 ≤ 0 < Minesweeper.width small_board ∧
  (0 ≤ -1 < Minesweeper.height small_board →
     ∃ b, Minesweeper.is_mine small_board (-1, 0) = Returned b ∧
          (b = true ↔ mine_at small_board (-1, 0))) ∧
  (- Minesweeper.height small_board ≤ -1 < 0 →
     Minesweeper.is_mine small_board (-1, 0) =
     Minesweeper.is_mine small_board (-1 + Minesweeper.height small_board, 0)) ∧
  (Minesweeper.height small_board ≤ -1 ∨ -1 < - Minesweeper.height small_board →
     Minesweeper.is_mine small_board (-1, 0) = Raised IndexError).
Proof.
  assert (rectangular small_board) as Hrect.
  { apply (bool_decide_unpack _). vm_compute. exact I. }
  assert (0 ≤ 0 < Minesweeper.width small_board) as Hj by (simpl; lia).
  split; [exact Hrect|]. split; [exact Hj|].
  exact (is_mine_spec small_board (-1) 0 Hrect Hj).
Defined.

(** ** The count the board reports and the sentence the agent builds *)

Section ReportedCount.
Variables (g : Minesweeper.t) (ai : MinesweeperAI.t) (cell : Cell).
Hypothesis Hrect : rectangular g.
Hypothesis Hcons : consistent g.
Hypothesis Hheight : MinesweeperAI.height ai = Minesweeper.height g.
Hypothesis Hwidth : MinesweeperAI.width ai = Minesweeper.width g.
Hypothesis Hsound : sound (Minesweeper.mines g) ai.

Lemma elem_of_mines_consistent (c : Cell) :
  c ∈ Minesweeper.mines g ↔ mine_at g c.
Proof. rewrite Hcons. apply elem_of_mines_on_board. Qed.

(** The count reported is the number of mines in the new sentence plus
    the number of cells around the observed cell that the agent already
    holds in [mines]. *)
Lemma reported_count_split :
  length (filter (λ c, c ≠ cell ∧ mine_at g c) (window cell)) =
  (size (MinesweeperAI.neighbors ai cell ∩ Minesweeper.mines g) +
   size (list_to_set
           (filter (λ c, c ≠ cell ∧ in_bounds ai c ∧ c ∈ MinesweeperAI.mines ai)
                   (window cell)) : gset Cell))%nat.
Proof.
  destruct Hsound as (Hsafes & Hmines & _).
  rewrite <- (size_list_to_set (C := gset Cell))
    by apply NoDup_filter, NoDup_window.
  rewrite <- size_union.
  - f_equal. apply set_eq. intros c.
    rewrite elem_of_union, elem_of_intersection, !elem_of_list_to_set,
      !list_elem_of_filter, elem_of_neighbors, elem_of_window,
      elem_of_mines_consistent.
    unfold collected, in_bounds, mine_at. rewrite Hheight, Hwidth.
    split.
    + intros ((Hne & Hm) & Hw).
      assert (c ∈ Minesweeper.mines g) as HcM by (by apply elem_of_mines_consistent).
      assert (c ∉ MinesweeperAI.safes ai) as Hns by set_solver.
      destruct (decide (c ∈ MinesweeperAI.mines ai)) as [Hin|Hnin].
      * right. unfold mine_at in Hm. tauto.
      * left. unfold mine_at in Hm. tauto.
    + intros [(Hn & Hm)|((Hne & Hin & Hmi) & Hw)].
      * tauto.
      * assert (mine_at g c) as Hm by (by apply elem_of_mines_consistent, Hmines).
        unfold mine_at in Hm. tauto.
  - intros c. rewrite elem_of_intersection, elem_of_list_to_set,
      list_elem_of_filter, elem_of_neighbors. unfold collected.
    tauto.
Qed.

Lemma reported_count_true_aux :
  true_on (Minesweeper.mines g)
    (Sentence.__init__ (MinesweeperAI.neighbors ai cell)
       (Z.of_nat (length (filter (λ c, c ≠ cell ∧ mine_at g c) (window cell)))))
  ↔ ∀ c, c ∈ window cell → c ≠ cell → in_bounds ai c →
         c ∉ MinesweeperAI.mines ai.
Proof.
  unfold true_on, Sentence.__init__. cbn [Sentence.cells Sentence.count].
  rewrite reported_count_split.
  set (known := list_to_set (filter _ (window cell)) : gset Cell).
  assert (∀ c, c ∈ known ↔
            (c ≠ cell ∧ in_bounds ai c ∧ c ∈ MinesweeperAI.mines ai) ∧
            c ∈ window cell) as Hknown.
  { intros c. unfold known. by rewrite elem_of_list_to_set, list_elem_of_filter. }
  split.
  - intros Heq c Hw Hne Hin Hmine.
    assert (size known = 0%nat) as Hz by lia.
    apply size_empty_inv in Hz. apply (not_elem_of_empty (C := gset Cell) c).
    apply Hz. by apply Hknown.
  - intros Hnone.
    assert (known = ∅) as ->.
    { apply set_eq. intros c. rewrite Hknown. split; [|set_solver].
      intros ((Hne & Hin & Hmine) & Hw). by destruct (Hnone c Hw Hne Hin). }
    rewrite size_empty. lia.
Qed.

End ReportedCount.

(** The count [nearby_mines] reports counts every mine around the cell,
    while [add_knowledge] leaves the cells it holds in [mines] out of the
    new sentence without lowering the count.  So on an agent whose
    knowledge is true of the board, the sentence built from the reported
    count is true exactly when no cell around the observed cell, inside
    the grid, is in the agent's [mines]. *)
Theorem reported_count_true_iff (g : Minesweeper.t) (ai : MinesweeperAI.t)
    (cell : Cell) :
  rectangular g → consistent g →
  MinesweeperAI.height ai = Minesweeper.height g →
  MinesweeperAI.width ai = Minesweeper.width g →
  sound (Minesweeper.mines g) ai →
  ensures (Minesweeper.nearby_mines g cell) (λ n,
    true_on (Minesweeper.mines g)
      (Sentence.__init__ (MinesweeperAI.neighbors ai cell) n)
    ↔ ∀ c, c ∈ window cell → c ≠ cell → in_bounds ai c →
           c ∉ MinesweeperAI.mines ai).
Proof.
  intros Hrect Hcons Hh Hw Hsound. rewrite nearby_mines_eq by done.
  cbn [ensures]. by apply reported_count_true_aux.
Qed.

(** Observing a cell with the count the board reports is sound as long as
    the cell holds no mine and no cell around it is in the agent's
    [mines]: the two calls return, and everything the agent holds is still
    true of the board. *)
Theorem observe_reported_count_sound (g : Minesweeper.t) (ai : MinesweeperAI.t)
    (cell : Cell) :
  rectangular g → consistent g →
  MinesweeperAI.height ai = Minesweeper.height g →
  MinesweeperAI.width ai = Minesweeper.width g →
  sound (Minesweeper.mines g) ai →
  cell ∉ Minesweeper.mines g →
  (∀ c, c ∈ window cell → c ≠ cell → in_bounds ai c →
        c ∉ MinesweeperAI.mines ai) →
  ensures (n ← Minesweeper.nearby_mines g cell;
           MinesweeperAI.add_knowledge ai cell n)
    (sound (Minesweeper.mines g)).
Proof.
  intros Hrect Hcons Hh Hw Hsound Hcell Hnone.
  rewrite nearby_mines_eq by done. cbn [mbind outcome_bind].
  apply add_knowledge_sound_aux; [done|done|].
  assert (true_on (Minesweeper.mines g)
            (Sentence.__init__ (MinesweeperAI.neighbors ai cell)
               (Z.of_nat (length (filter (λ c, c ≠ cell ∧ mine_at g c)
                                    (window cell)))))) as Htrue
    by (by apply reported_count_true_aux).
  exact Htrue.
Qed.

Lemma reported_count_true_iff_witness :
  rectangular small_board ∧ consistent small_board ∧
  MinesweeperAI.height agent_mid_game = Minesweeper.height small_board ∧
  MinesweeperAI.width agent_mid_game = Minesweeper.width small_board ∧
  sound (Minesweeper.mines small_board) agent_mid_game ∧
  ((0,1) ∈ window (1,1) ∧ (0,1) ∈ MinesweeperAI.mines agent_mid_game) ∧
  ensures (Minesweeper.nearby_mines small_board (1,1)) (λ n,
    true_on (Minesweeper.mines small_board)
      (Sentence.__init__ (MinesweeperAI.neighbors agent_mid_game (1,1)) n)
    ↔ ∀ c, c ∈ window (1,1) → c ≠ (1,1) → in_bounds agent_mid_game c →
           c ∉ MinesweeperAI.mines agent_mid_game).
Proof.
  assert (rectangular small_board) as Hrect.
  { apply (bool_decide_unpack _). vm_compute. exact I. }
  assert (consistent small_board) as Hcons.
  { apply (bool_decide_unpack _). vm_compute. exact I. }
  assert (sound (Minesweeper.mines small_board) agent_mid_game) as Hsound.
  { apply (bool_decide_unpack _). vm_compute. exact I. }
  split_and!; [exact Hrect | exact Hcons | reflexivity | reflexivity | exact Hsound
              | | |].
  - apply (bool_decide_unpack _). vm_compute. exact I.
  - apply (bool_decide_unpack _). vm_compute. exact I.
  - exact (reported_count_true_iff small_board agent_mid_game (1,1)
             Hrect Hcons eq_refl eq_refl Hsound).
Defined.

Lemma observe_reported_count_sound_witness :
  rectangular small_board ∧ consistent small_board ∧
  MinesweeperAI.height agent_mid_game = Minesweeper.height small_board ∧
  MinesweeperAI.width agent_mid_game = Minesweeper.width small_board ∧
  sound (Minesweeper.mines small_board) agent_mid_game ∧
  ((2,2) ∉ Minesweeper.mines small_board) ∧
  (∀ c, c ∈ window (2,2) → c ≠ (2,2) → in_bounds agent_mid_game c →
        c ∉ MinesweeperAI.mines agent_mid_game) ∧
  ensures (n ← Minesweeper.nearby_mines small_board (2,2);
           MinesweeperAI.add_knowledge agent_mid_game (2,2) n)
    (sound (Minesweeper.mines small_board)).
Proof.
  assert (rectangular small_board) as Hrect.
  { apply (bool_decide_unpack _). vm_compute. exact I. }
  assert (consistent small_board) as Hcons.
  { apply (bool_decide_unpack _). vm_compute. exact I. }
  assert (sound (Minesweeper.mines small_board) agent_mid_game) as Hsound.
  { apply (bool_decide_unpack _). vm_compute. exact I. }
  assert ((2,2) ∉ Minesweeper.mines small_board) as Hcell.
  { apply (bool_decide_unpack _). vm_compute. exact I. }
  assert (∀ c, c ∈ window (2,2) → c ≠ (2,2) → in_bounds agent_mid_game c →
            c ∉ MinesweeperAI.mines agent_mid_game) as Hnone.
  { intros c [Hrow _]%elem_of_window _ _ Hc.
    unfold agent_mid_game in Hc. cbn [MinesweeperAI.mines] in Hc.
    apply elem_of_singleton in Hc. subst c. cbn [fst] in Hrow. lia. }
  split_and!;
    [exact Hrect | exact Hcons | reflexivity | reflexivity | exact Hsound
    | exact Hcell | exact Hnone |].
  exact (observe_reported_count_sound small_board agent_mid_game (2,2)
           Hrect Hcons eq_refl eq_refl Hsound Hcell Hnone).
Defined.

(** ** An observation outside the grid, and the sentence it adds *)

(** C5, as the code has it.  [add_knowledge] does not look at the bounds of
    the cell it is given.  For a cell outside the grid it does what it does
    for any other: it records the cell in [moves_made] and in [safes],
    strikes it from every sentence, appends the sentence with the given
    count about the cells at most one row and one column away, other than
    the cell, that lie inside the grid and are in neither [safes] nor
    [mines], and runs the pass on that state.  The call returns, with the
    cell in [moves_made] and in [safes] and the grid as it was. *)
Theorem out_of_bounds_is_recorded (ai : MinesweeperAI.t) (cell : Cell) (count : Z) :
  ¬ in_bounds ai cell →
  ∃ before new_sentence,
    MinesweeperAI.add_knowledge ai cell count =
      MinesweeperAI.apply_inference before ∧
    MinesweeperAI.moves_made before = {[cell]} ∪ MinesweeperAI.moves_made ai ∧
    MinesweeperAI.safes before = {[cell]} ∪ MinesweeperAI.safes ai ∧
    MinesweeperAI.mines before = MinesweeperAI.mines ai ∧
    MinesweeperAI.knowledge before =
      ((λ s, strike_safe s cell) <$> MinesweeperAI.knowledge ai) ++ [new_sentence] ∧
    Sentence.count new_sentence = count ∧
    (∀ x, x ∈ Sentence.cells new_sentence ↔
       x ≠ cell ∧
       (cell.1 - 1 ≤ x.1 ≤ cell.1 + 1) ∧ (cell.2 - 1 ≤ x.2 ≤ cell.2 + 1) ∧
       in_bounds ai x ∧
       (x ∉ MinesweeperAI.safes ai) ∧ (x ∉ MinesweeperAI.mines ai)) ∧
    ensures (MinesweeperAI.add_knowledge ai cell count) (λ ai',
      cell ∈ MinesweeperAI.moves_made ai' ∧ cell ∈ MinesweeperAI.safes ai' ∧
      MinesweeperAI.height ai' = MinesweeperAI.height ai ∧
      MinesweeperAI.width ai' = MinesweeperAI.width ai).
Proof.
  intros _.
  exists (recorded ai cell count),
         (Sentence.__init__ (MinesweeperAI.neighbors ai cell) count).
  destruct (recorded_fields ai cell count)
    as (Emoves & Esafes & Emines & Eh & Ew & ai1 & _ & _ & _ & _ & _).
  split_and!.
  - apply add_knowledge_eq.
  - exact Emoves.
  - exact Esafes.
  - exact Emines.
  - unfold recorded. rewrite neighbors_after_mark_safe. reflexivity.
  - reflexivity.
  - intros x. unfold Sentence.__init__. cbn [Sentence.cells].
    rewrite elem_of_neighbors. unfold collected, in_bounds. tauto.
  - rewrite add_knowledge_eq.
    eapply ensures_mono; [apply apply_inference_grows|].
    intros ai' (Hs & _ & Hm & Hh & Hw).
    rewrite Hm, Hh, Hw, Emoves, Eh, Ew. rewrite Esafes in Hs.
    split_and!; [set_solver|set_solver|done|done].
Qed.

Lemma out_of_bounds_is_recorded_witness :
  ¬ in_bounds (MinesweeperAI.__init__ 8 8) (-1, -1) ∧
  ∃ before new_sentence,
    MinesweeperAI.add_knowledge (MinesweeperAI.__init__ 8 8) (-1, -1) 0 =
      MinesweeperAI.apply_inference before ∧
    MinesweeperAI.moves_made before =
      {[ (-1, -1) ]} ∪ MinesweeperAI.moves_made (MinesweeperAI.__init__ 8 8) ∧
    MinesweeperAI.safes before =
      {[ (-1, -1) ]} ∪ MinesweeperAI.safes (MinesweeperAI.__init__ 8 8) ∧
    MinesweeperAI.mines before = MinesweeperAI.mines (MinesweeperAI.__init__ 8 8) ∧
    MinesweeperAI.knowledge before =
      ((λ s, strike_safe s (-1, -1)) <$>
         MinesweeperAI.knowledge (MinesweeperAI.__init__ 8 8)) ++ [new_sentence] ∧
    Sentence.count new_sentence = 0 ∧
    (∀ x, x ∈ Sentence.cells new_sentence ↔
       x ≠ (-1, -1) ∧
       (-1 - 1 ≤ x.1 ≤ -1 + 1) ∧ (-1 - 1 ≤ x.2 ≤ -1 + 1) ∧
       in_bounds (MinesweeperAI.__init__ 8 8) x ∧
       (x ∉ MinesweeperAI.safes (MinesweeperAI.__init__ 8 8)) ∧
       (x ∉ MinesweeperAI.mines (MinesweeperAI.__init__ 8 8))) ∧
    ensures (MinesweeperAI.add_knowledge (MinesweeperAI.__init__ 8 8) (-1, -1) 0)
      (λ ai',
        (-1, -1) ∈ MinesweeperAI.moves_made ai' ∧ (-1, -1) ∈ MinesweeperAI.safes ai' ∧
        MinesweeperAI.height ai' = MinesweeperAI.height (MinesweeperAI.__init__ 8 8) ∧
        MinesweeperAI.width ai' = MinesweeperAI.width (MinesweeperAI.__init__ 8 8)).
Proof.
  assert (¬ in_bounds (MinesweeperAI.__init__ 8 8) (-1, -1)) as Hout.
  { unfold in_bounds. simpl. lia. }
  split; [exact Hout|].
  exact (out_of_bounds_is_recorded (MinesweeperAI.__init__ 8 8) (-1, -1) 0 Hout).
Defined.

(** ** Subset inference inside a larger knowledge base *)

Lemma foldl_strike_safe_absent (l : list Cell) (s : Sentence.t) :
  (∀ c, c ∈ l → c ∉ Sentence.cells s) → foldl strike_safe s l = s.
Proof.
  induction l as [|c l IH]; intros Hl; simpl; [done|].
  unfold strike_safe at 2. rewrite decide_False by (apply Hl; by left).
  apply IH. intros c' Hc'. apply Hl. by right.
Qed.

(** The first loop comes to every index: what the rounds keep up to index
    [k], and the round at index [k] turns into [Q], holds as [Q] at the end
    when the later rounds keep [Q]. *)
Lemma mark_known_visits (P Q : MinesweeperAI.t → Prop) (k : nat) :
  (∀ ai s, s ∈ MinesweeperAI.knowledge ai → P ai → P (settle ai s)) →
  (∀ ai s, MinesweeperAI.knowledge ai !! k = Some s → P ai → Q (settle ai s)) →
  (∀ ai s, s ∈ MinesweeperAI.knowledge ai → Q ai → Q (settle ai s)) →
  ∀ n i ai,
    (i + n = length (MinesweeperAI.knowledge ai))%nat →
    (k < length (MinesweeperAI.knowledge ai))%nat →
    (if decide (i ≤ k)%nat then P ai else Q ai) →
    ensures (MinesweeperAI.mark_known n i ai) Q.
Proof.
  intros HP HPQ HQ n. induction n as [|n IH]; intros i ai Hlen Hk Hai.
  - rewrite decide_False in Hai by lia. done.
  - rewrite mark_known_S.
    destruct (MinesweeperAI.knowledge ai !! i) as [s|] eqn:Hi.
    + assert (s ∈ MinesweeperAI.knowledge ai) as Hs
        by (by eapply list_elem_of_lookup_2).
      apply IH.
      * rewrite settle_length. lia.
      * by rewrite settle_length.
      * destruct (decide (i ≤ k)%nat) as [Hle|Hgt].
        -- destruct (decide (S i ≤ k)%nat) as [Hle'|Hgt'].
           ++ by apply HP.
           ++ assert (i = k) as -> by lia. by apply HPQ.
        -- rewrite decide_False by lia. by apply HQ.
    + apply lookup_ge_None in Hi. lia.
Qed.

Section SubsetInferenceSound.
Variable board_mines : gset Cell.
Variables a b c : Cell.
Hypothesis Hab : a ≠ b.
Hypothesis Hac : a ≠ c.
Hypothesis Hbc : b ≠ c.

(** If both sentences are true of the board, [c] holds a mine. *)
Lemma third_cell_is_mine :
  true_on board_mines (pair_sentence a b) →
  true_on board_mines (triple_sentence a b c) →
  c ∈ board_mines.
Proof.
  unfold true_on, pair_sentence, triple_sentence, Sentence.__init__.
  cbn [Sentence.cells Sentence.count]. intros H1 H2.
  destruct (decide (c ∈ board_mines)) as [Hc|Hc]; [done|]. exfalso.
  assert (({[a; b; c]} : gset Cell) ∩ board_mines = {[a; b]} ∩ board_mines) as Heq
    by set_solver.
  rewrite Heq in H2. lia.
Qed.

(** A true sentence whose only cell is [c] is [{c} = 1]. *)
Lemma single_sentence_true (s : Sentence.t) :
  c ∈ board_mines → true_on board_mines s → Sentence.cells s = {[c]} →
  s = single_sentence c.
Proof.
  unfold true_on. intros Hc Htrue Hcells. apply sentence_eq_fields.
  - by rewrite Hcells.
  - rewrite Htrue, Hcells. unfold single_sentence, Sentence.__init__.
    cbn [Sentence.count].
    replace (({[c]} : gset Cell) ∩ board_mines) with ({[c]} : gset Cell) by set_solver.
    by rewrite size_singleton.
Qed.

(** What the first loop keeps of the two sentences: each is still in
    [knowledge], less the cells [lost] that the loop has marked. *)
Lemma pair_triple_tracked (ai : MinesweeperAI.t) (s : Sentence.t) :
  let tracked ai' :=
    sound board_mines ai' ∧
    ∃ (lost : gset Cell) s1 s2,
      lost ⊆ MinesweeperAI.safes ai' ∪ MinesweeperAI.mines ai' ∧
      s1 ∈ MinesweeperAI.knowledge ai' ∧ s2 ∈ MinesweeperAI.knowledge ai' ∧
      Sentence.cells s1 = {[a; b]} ∖ lost ∧
      Sentence.cells s2 = {[a; b; c]} ∖ lost in
  s ∈ MinesweeperAI.knowledge ai → tracked ai → tracked (settle ai s).
Proof.
  intros tracked Hs (Hsound & lost & s1 & s2 & Hlost & Hs1 & Hs2 & Hc1 & Hc2).
  split; [by apply settle_sound|].
  destruct (settle_fields ai s) as (Em & Es & Ek).
  set (km := (Sentence.known_mines s).1) in *.
  set (ks := (Sentence.known_safes s).1) in *.
  set (f := λ s0, foldl strike_safe (foldl strike_mine s0 (elements km)) (elements ks)) in *.
  assert (∀ s0, Sentence.cells (f s0) = Sentence.cells s0 ∖ km ∖ ks) as Hf.
  { intros s0. unfold f.
    rewrite foldl_strike_safe_cells, foldl_strike_mine_cells.
    by rewrite !list_to_set_elements_L. }
  exists (lost ∪ km ∪ ks), (f s1), (f s2). rewrite Em, Es, Ek. split_and!.
  - set_solver.
  - by apply list_elem_of_fmap_2.
  - by apply list_elem_of_fmap_2.
  - rewrite Hf, Hc1. set_solver.
  - rewrite Hf, Hc2. set_solver.
Qed.

(** After the first pass [c] is in [mines] or [{c} = 1] is in
    [knowledge]. *)
Lemma first_pass_finds_single (ai : MinesweeperAI.t) :
  sound board_mines ai →
  pair_sentence a b ∈ MinesweeperAI.knowledge ai →
  triple_sentence a b c ∈ MinesweeperAI.knowledge ai →
  ensures (MinesweeperAI.apply_inference ai) (λ ai1,
    sound board_mines ai1 ∧
    (c ∈ MinesweeperAI.mines ai1 ∨
     single_sentence c ∈ MinesweeperAI.knowledge ai1)).
Proof.
  intros Hsound Hpair Htriple.
  assert (c ∈ board_mines) as HcM.
  { destruct Hsound as (_ & _ & Hkb). rewrite Forall_forall in Hkb.
    apply third_cell_is_mine; by apply Hkb. }
  set (tracked := λ ai' : MinesweeperAI.t,
    sound board_mines ai' ∧
    ∃ (lost : gset Cell) s1 s2,
      lost ⊆ MinesweeperAI.safes ai' ∪ MinesweeperAI.mines ai' ∧
      s1 ∈ MinesweeperAI.knowledge ai' ∧ s2 ∈ MinesweeperAI.knowledge ai' ∧
      Sentence.cells s1 = {[a; b]} ∖ lost ∧
      Sentence.cells s2 = {[a; b; c]} ∖ lost).
  apply (apply_inference_ensures tracked).
  - apply mark_known_rounds. intros ai' s. apply pair_triple_tracked.
  - intros ai1 (Hsound1 & lost & s1 & s2 & Hlost & Hs1 & Hs2 & Hc1 & Hc2).
    split; [by apply kept_and_inferred_sound|].
    cbn [MinesweeperAI.mines MinesweeperAI.knowledge MinesweeperAI.set_knowledge].
    destruct Hsound1 as (Hsafe1 & Hmine1 & Hkb1). rewrite Forall_forall in Hkb1.
    destruct (decide (c ∈ lost)) as [Hin|Hnin].
    { left. apply Hlost in Hin. set_solver. }
    right.
    assert (Sentence.cells s2 = Sentence.cells s1 ∪ {[c]}) as Hc21
      by (rewrite Hc1, Hc2; set_solver).
    assert (c ∉ Sentence.cells s1) as Hc1' by (rewrite Hc1; set_solver).
    assert (s2 ∈ pruned (MinesweeperAI.knowledge ai1)) as Hs2'.
    { apply list_elem_of_filter. split; [|done].
      assert (size (Sentence.cells s2) ≠ 0%nat); [|lia].
      intros Hz%size_empty_inv. rewrite Hc21 in Hz. set_solver. }
    assert (Sentence.count s2 = Sentence.count s1 + 1) as Hcount.
    { rewrite (Hkb1 s1 Hs1), (Hkb1 s2 Hs2), Hc21.
      replace ((Sentence.cells s1 ∪ {[c]}) ∩ board_mines)
        with ((Sentence.cells s1 ∩ board_mines) ∪ {[c]}) by set_solver.
      rewrite size_union by set_solver. rewrite size_singleton. lia. }
    destruct (decide (Sentence.cells s1 = ∅)) as [Hempty|Hfull].
    + apply elem_of_app. left.
      rewrite <- (single_sentence_true s2); [done|done|by apply Hkb1|].
      rewrite Hc21, Hempty. set_solver.
    + assert (s1 ∈ pruned (MinesweeperAI.knowledge ai1)) as Hs1'.
      { apply list_elem_of_filter. split; [|done].
        assert (size (Sentence.cells s1) ≠ 0%nat); [|lia].
        intros Hz%size_empty_inv. apply Hfull. by apply leibniz_equiv. }
      assert (Sentence.__init__ (Sentence.cells s2 ∖ Sentence.cells s1)
                (Sentence.count s2 - Sentence.count s1) = single_sentence c) as Hdiff.
      { unfold single_sentence, Sentence.__init__. f_equal.
        - rewrite Hc21. set_solver.
        - lia. }
      destruct (decide (single_sentence c ∈ pruned (MinesweeperAI.knowledge ai1)))
        as [Hold|Hnew]; apply elem_of_app; [by left|right].
      apply elem_of_infer_pairs. exists s1, s2. split_and!; try done.
      * intros ->. apply Hc1'. rewrite Hc21. set_solver.
      * rewrite Hc21. set_solver.
  - split; [done|]. exists ∅, (pair_sentence a b), (triple_sentence a b c).
    split_and!; [set_solver|done|done| |].
    + unfold pair_sentence, Sentence.__init__. cbn [Sentence.cells]. set_solver.
    + unfold triple_sentence, Sentence.__init__. cbn [Sentence.cells]. set_solver.
Qed.

(** The next pass marks [c]: its first loop comes to [{c} = 1], if [c] is
    not in [mines] by then. *)
Lemma second_pass_marks (ai1 : MinesweeperAI.t) :
  c ∈ board_mines → sound board_mines ai1 →
  c ∈ MinesweeperAI.mines ai1 ∨ single_sentence c ∈ MinesweeperAI.knowledge ai1 →
  ensures (MinesweeperAI.apply_inference ai1) (λ ai2, c ∈ MinesweeperAI.mines ai2).
Proof.
  intros HcM Hsound [Hmine|Hsingle].
  { eapply ensures_mono; [apply apply_inference_grows|].
    intros ai2 (_ & Hm & _). by apply Hm. }
  apply list_elem_of_lookup in Hsingle as [k Hk].
  destruct (apply_inference_eq ai1) as (ai2 & Hloop & ->). cbn [ensures].
  cbn [MinesweeperAI.mines MinesweeperAI.set_knowledge].
  set (P := λ ai' : MinesweeperAI.t,
    sound board_mines ai' ∧
    (c ∈ MinesweeperAI.mines ai' ∨
     MinesweeperAI.knowledge ai' !! k = Some (single_sentence c))).
  set (Q := λ ai' : MinesweeperAI.t, c ∈ MinesweeperAI.mines ai').
  pose proof (mark_known_visits P Q k) as Hvisit.
  assert (ensures (MinesweeperAI.mark_known
            (length (MinesweeperAI.knowledge ai1)) 0 ai1) Q) as Hend.
  { apply Hvisit.
    - intros ai' s Hs [Hsound' Hcase]. split; [by apply settle_sound|].
      destruct (settle_fields ai' s) as (Em & Es & Ek).
      destruct Hcase as [Hin|Hat]; [left; rewrite Em; set_solver|].
      destruct (decide (c ∈ (Sentence.known_mines s).1)) as [Hkm|Hkm];
        [left; rewrite Em; set_solver|].
      assert (c ∉ (Sentence.known_safes s).1) as Hks.
      { intros Hks.
        destruct (settle_sound board_mines ai' s Hs Hsound') as (Hsafe & _ & _).
        rewrite Es in Hsafe. set_solver. }
      right. rewrite Ek, list_lookup_fmap, Hat. cbn [fmap option_fmap option_map].
      f_equal. rewrite foldl_strike_mine_absent.
      + apply foldl_strike_safe_absent. intros x Hx%elem_of_elements.
        unfold single_sentence, Sentence.__init__. cbn [Sentence.cells]. set_solver.
      + intros x Hx%elem_of_elements.
        unfold single_sentence, Sentence.__init__. cbn [Sentence.cells]. set_solver.
    - intros ai' s Hat [Hsound' Hcase]. unfold Q.
      destruct (settle_fields ai' s) as (Em & _ & _). rewrite Em.
      destruct Hcase as [Hin|Hat']; [set_solver|].
      rewrite Hat' in Hat. injection Hat as <-.
      assert ((Sentence.known_mines (single_sentence c)).1 = {[c]}) as ->.
      { unfold Sentence.known_mines, single_sentence, Sentence.__init__.
        cbn [Sentence.cells Sentence.count]. rewrite size_singleton.
        by rewrite decide_True by lia. }
      set_solver.
    - intros ai' s _. unfold Q. destruct (settle_fields ai' s) as (Em & _ & _).
      rewrite Em. set_solver.
    - lia.
    - by eapply lookup_lt_Some.
    - rewrite decide_True by lia. split; [done|by right]. }
  rewrite Hloop in Hend. exact Hend.
Qed.

End SubsetInferenceSound.

(** C1, as the code has it.  Take an agent whose [knowledge] contains the
    sentences [{a, b} = 1] and [{a, b, c} = 2], with [a], [b], [c] distinct,
    and whose [safes], [mines] and sentences are true of a board.  One run
    of [apply_inference] returns with [c] in [mines] or with the sentence
    [{c} = 1] in [knowledge]: the loop that marks known mines runs before
    the pairwise step, so a sentence the step derives is not acted on in
    the same run.  A second run of [apply_inference] returns with [c] in
    [mines]. *)
Theorem subset_inference_two_passes (board_mines : gset Cell)
    (ai : MinesweeperAI.t) (a b c : Cell) :
  a ≠ b → a ≠ c → b ≠ c →
  sound board_mines ai →
  pair_sentence a b ∈ MinesweeperAI.knowledge ai →
  triple_sentence a b c ∈ MinesweeperAI.knowledge ai →
  ensures (MinesweeperAI.apply_inference ai) (λ ai1,
    (c ∈ MinesweeperAI.mines ai1 ∨
     single_sentence c ∈ MinesweeperAI.knowledge ai1) ∧
    ensures (MinesweeperAI.apply_inference ai1) (λ ai2,
      c ∈ MinesweeperAI.mines ai2)).
Proof.
  intros Hab Hac Hbc Hsound Hpair Htriple.
  assert (c ∈ board_mines) as HcM.
  { destruct Hsound as (_ & _ & Hkb). rewrite Forall_forall in Hkb.
    apply (third_cell_is_mine board_mines a b c Hab Hac Hbc); by apply Hkb. }
  eapply ensures_mono.
  - exact (first_pass_finds_single board_mines a b c Hab Hac Hbc ai
             Hsound Hpair Htriple).
  - intros ai1 [Hsound1 Hcase]. split; [done|].
    exact (second_pass_marks board_mines a b c Hab Hac Hbc ai1 HcM Hsound1 Hcase).
Qed.

Lemma subset_inference_two_passes_witness :
  ((0,0) : Cell) ≠ (0,1) ∧ ((0,0) : Cell) ≠ (0,2) ∧ ((0,1) : Cell) ≠ (0,2) ∧
  sound {[ (0,0); (0,2); (5,5) ]} agent_with_three_sentences ∧
  pair_sentence (0,0) (0,1) ∈ MinesweeperAI.knowledge agent_with_three_sentences ∧
  triple_sentence (0,0) (0,1) (0,2) ∈
    MinesweeperAI.knowledge agent_with_three_sentences ∧
  ensures (MinesweeperAI.apply_inference agent_with_three_sentences) (λ ai1,
    ((0,2) ∈ MinesweeperAI.mines ai1 ∨
     single_sentence (0,2) ∈ MinesweeperAI.knowledge ai1) ∧
    ensures (MinesweeperAI.apply_inference ai1) (λ ai2,
      (0,2) ∈ MinesweeperAI.mines ai2)).
Proof.
  assert (((0,0) : Cell) ≠ (0,1)) as Hab by discriminate.
  assert (((0,0) : Cell) ≠ (0,2)) as Hac by discriminate.
  assert (((0,1) : Cell) ≠ (0,2)) as Hbc by discriminate.
  assert (sound {[ (0,0); (0,2); (5,5) ]} agent_with_three_sentences) as Hsound.
  { apply (bool_decide_unpack _). vm_compute. exact I. }
  assert (pair_sentence (0,0) (0,1) ∈
            MinesweeperAI.knowledge agent_with_three_sentences) as Hpair.
  { apply (bool_decide_unpack _). vm_compute. exact I. }
  assert (triple_sentence (0,0) (0,1) (0,2) ∈
            MinesweeperAI.knowledge agent_with_three_sentences) as Htriple.
  { apply (bool_decide_unpack _). vm_compute. exact I. }
  split_and!;
    [exact Hab | exact Hac | exact Hbc | exact Hsound | exact Hpair | exact Htriple |].
  exact (subset_inference_two_passes _ agent_with_three_sentences (0,0) (0,1) (0,2)
           Hab Hac Hbc Hsound Hpair Htriple).
Defined.

(** The two passes need knowledge that is true of a board.  With the
    sentence [{(0,2)} = 0] in [knowledge] beside the two sentences, no
    board makes all three true; the first pass marks (0,2) safe, and (0,2)
    is not in [mines] after the second pass either. *)
Lemma two_passes_need_true_knowledge :
  pair_sentence (0,0) (0,1) ∈ MinesweeperAI.knowledge agent_with_false_sentence ∧
  triple_sentence (0,0) (0,1) (0,2) ∈
    MinesweeperAI.knowledge agent_with_false_sentence ∧
  ensures (ai1 ← MinesweeperAI.apply_inference agent_with_false_sentence;
           MinesweeperAI.apply_inference ai1) (λ ai2,
    (0,2) ∈ MinesweeperAI.safes ai2 ∧ (0,2) ∉ MinesweeperAI.mines ai2).
Proof.
  split_and!.
  - apply (bool_decide_unpack _). vm_compute. exact I.
  - apply (bool_decide_unpack _). vm_compute. exact I.
  - apply (bool_decide_unpack _). vm_compute. exact I.
Qed.
